(** * cn-infra: value encryption client and gRPC listener configuration

  A shallow embedding of
  - [cryptodata.Client] ([EncryptData], [DecryptData]), and
  - [grpc.Config] ([getGrpcOptions], [getTLS], [GetPort]),
  together with the properties their specification states.

  The Go standard library the code calls (encoding/base64, crypto/rsa,
  crypto/tls, crypto/x509, io/ioutil) is kept behind interfaces; the
  contracts the proofs rely on are stated as section hypotheses, and each
  interface has an executable instance further down. *)

From Stdlib Require Import ZArith NArith List Bool Lia Sorted.
From Stdlib Require Import Strings.String Strings.Ascii Strings.Byte.
Import ListNotations.
Local Open Scope string_scope.
Local Open Scope Z_scope.

(** ** Go values shared by both packages *)

Module golang.

(** [[]byte] contents. *)
Definition bytes : Type := list byte.

(** A [[]byte] value: [None] is the nil slice, [Some []] an empty one. *)
Definition slice : Type := option bytes.

Definition content (s : slice) : bytes :=
  match s with
  | Some b => b
  | None => []
  end.

Definition len (b : bytes) : Z := Z.of_nat (List.length b).

(** The [error] values that reach the code under study. *)
Inductive error : Type :=
| errorString (msg : string)               (* errors.New, fmt.Errorf *)
| CorruptInputError (offset : Z)           (* encoding/base64 *)
| ErrMessageTooLong                        (* crypto/rsa *)
| ErrDecryption                            (* crypto/rsa *)
| PathError (op path cause : string)       (* os *)
| NumError (func num cause : string)       (* strconv *)
| OtherError (pkg msg : string).           (* any other library error *)

Definition errors_New (msg : string) : error := errorString msg.

(** A Go result pair [(value, err)]; [None] is the nil error. *)
Definition result (A : Type) : Type := (A * option error)%type.

End golang.
Export golang.

(** ** Library interfaces *)

Module base64.

(** [base64.URLEncoding]'s two methods used by the client. *)
Class Encoding : Type := {
  EncodeToString : bytes -> string;
  DecodeString : string -> result bytes
}.

End base64.

Module rsa.

(** crypto/rsa's OAEP entry points with the [hash.Hash] and [io.Reader]
    they are handed.  A value of [io_Reader] is the current state of a
    randomness source; each call returns the state it leaves behind. *)
Class Lib : Type := {
  PublicKey : Type;
  PrivateKey : Type;
  hash_Hash : Type;
  io_Reader : Type;
  (** [pub.Size()]: the modulus length in bytes. *)
  Size : PublicKey -> Z;
  (** [hash.Size()]: the digest length in bytes. *)
  hash_Size : hash_Hash -> Z;
  (** [KeyPair pub priv]: one [rsa.GenerateKey] call produced [priv] and
      [pub] is its [priv.PublicKey]. *)
  KeyPair : PublicKey -> PrivateKey -> Prop;
  EncryptOAEP :
    hash_Hash -> io_Reader -> PublicKey -> bytes -> slice ->
    result slice * io_Reader;
  DecryptOAEP :
    hash_Hash -> io_Reader -> PrivateKey -> bytes -> slice ->
    result slice * io_Reader
}.

End rsa.

(** ** Package cryptodata *)

Module cryptodata.
Import base64 rsa.

Section Model.
Context {enc : Encoding} {lib : Lib}.

(** [ClientConfig] / [Client] as [NewClient] leaves it (both defaults
    filled in, so [Reader] and [Hash] are never nil). *)
Record Client : Type := {
  PrivateKeys : list PrivateKey;
  Reader : io_Reader;
  Hash : hash_Hash
}.

(** Calls into crypto/rsa, in the order they are made. *)
Inductive Call : Type :=
| CallEncryptOAEP (pub : PublicKey)
| CallDecryptOAEP (key : PrivateKey).

(** The methods have a pointer receiver: the state they run in is the
    receiver (whose [Reader] advances) and the record of library calls. *)
Record State : Type := {
  client : Client;
  calls : list Call
}.

Definition M (A : Type) : Type := State -> A * State.

Definition ret {A} (a : A) : M A := fun s => (a, s).

Definition bind {A B} (m : M A) (k : A -> M B) : M B :=
  fun s => let '(a, s') := m s in k a s'.

Definition get : M State := fun s => (s, s).

Definition with_Reader (c : Client) (r : io_Reader) : Client :=
  {| PrivateKeys := PrivateKeys c; Reader := r; Hash := Hash c |}.

(** [rsa.EncryptOAEP(client.Hash, client.Reader, pub, msg, label)] *)
Definition rsa_EncryptOAEP (pub : PublicKey) (msg : bytes) (label : slice)
  : M (result slice) :=
  fun s =>
    let c := client s in
    let '(res, r') := EncryptOAEP (Hash c) (Reader c) pub msg label in
    (res, {| client := with_Reader c r';
             calls := (calls s ++ [CallEncryptOAEP pub])%list |}).

(** [rsa.DecryptOAEP(client.Hash, client.Reader, key, ciphertext, label)] *)
Definition rsa_DecryptOAEP (key : PrivateKey) (ct : bytes) (label : slice)
  : M (result slice) :=
  fun s =>
    let c := client s in
    let '(res, r') := DecryptOAEP (Hash c) (Reader c) key ct label in
    (res, {| client := with_Reader c r';
             calls := (calls s ++ [CallDecryptOAEP key])%list |}).

Notation "x <- m ;; k" := (bind m (fun x => k))
  (at level 61, m at next level, right associativity).
Notation "' p <- m ;; k" := (bind m (fun x => let p := x in k))
  (at level 61, p pattern, m at next level, right associativity).

(** [func (client *Client) EncryptData(inData []byte, pub *rsa.PublicKey)]:
    the library's [err] is returned as it is, after [data] has been
    base64-encoded whatever [err] was. *)
Definition EncryptData (inData : bytes) (pub : PublicKey) : M (result slice) :=
  ' (data, err) <- rsa_EncryptOAEP pub inData None ;;
  let data := Some (list_byte_of_string (EncodeToString (content data))) in
  ret (data, err).

Definition errNoKey : error :=
  errors_New "failed to decrypt data due to no private key matching".

(** The [for _, key := range client.PrivateKeys] loop of [DecryptData]
    with the [return] that follows it. *)
Fixpoint DecryptData_range (keys : list PrivateKey) (inData : bytes)
  : M (result slice) :=
  match keys with
  | [] => ret (None, Some errNoKey)
  | key :: keys' =>
      ' (data, err) <- rsa_DecryptOAEP key inData None ;;
      match err with
      | None => ret (data, None)
      | Some _ => DecryptData_range keys' inData
      end
  end.

(** [func (client *Client) DecryptData(inData []byte)]: on a decoding
    error the naked [return] hands back the named result [data], still
    nil, and the decoder's [err]. *)
Definition DecryptData (inData : bytes) : M (result slice) :=
  let '(inData', err) := DecodeString (string_of_list_byte inData) in
  match err with
  | Some e => ret (None, Some e)
  | None =>
      s <- get ;;
      DecryptData_range (PrivateKeys (client s)) inData'
  end.

End Model.

Arguments Client {lib}.
Arguments Call {lib}.
Arguments State {lib}.
Arguments M {lib} A.

End cryptodata.


(** ** Library functions used by package grpc *)

Module strings.

(** [s[n:]] for [0 <= n <= len(s)]. *)
Fixpoint string_from (n : nat) (s : string) : string :=
  match n, s with
  | O, _ => s
  | S n', String _ s' => string_from n' s'
  | S _, EmptyString => EmptyString
  end.

(** [strings.LastIndex] by a scan that keeps the rightmost match:
    [i] is the offset of [s] in the whole string. *)
Fixpoint LastIndex_at (i : Z) (s substr : string) : Z :=
  match s with
  | EmptyString => if String.prefix substr s then i else -1
  | String _ s' =>
      let later := LastIndex_at (i + 1) s' substr in
      if 0 <=? later then later
      else if String.prefix substr s then i else -1
  end.

(** [strings.LastIndex(s, substr)]: the index of the last instance of
    [substr] in [s], or -1. *)
Definition LastIndex (s substr : string) : Z := LastIndex_at 0 s substr.

End strings.

Module strconv.

Definition ErrSyntax : string := "invalid syntax".
Definition ErrRange : string := "value out of range".

Definition digit (c : ascii) : option Z :=
  let n := Z.of_N (N_of_ascii c) in
  if (48 <=? n) && (n <=? 57) then Some (n - 48) else None.

Definition maxUint64 : Z := 2 ^ 64 - 1.

(** The digit loop of [ParseUint(s, 10, 64)]: [n] is the value read so
    far; the result is the value and the cause of the failure, if any. *)
Fixpoint ParseUint_digits (s : string) (n : Z) : Z * option string :=
  match s with
  | EmptyString => (n, None)
  | String c s' =>
      match digit c with
      | None => (0, Some ErrSyntax)
      | Some d =>
          if maxUint64 / 10 + 1 <=? n then (maxUint64, Some ErrRange)
          else
            let n1 := n * 10 + d in
            if maxUint64 <? n1 then (maxUint64, Some ErrRange)
            else ParseUint_digits s' n1
      end
  end.

(** [strconv.Atoi] where [int] has 64 bits.  The short-input fast path of
    the library returns what [ParseInt(s, 10, 0)] returns, which is what
    is written here: an optional sign, then decimal digits. *)
Definition Atoi (s : string) : result Z :=
  let syntax := Some (NumError "Atoi" s ErrSyntax) in
  let range := Some (NumError "Atoi" s ErrRange) in
  match s with
  | EmptyString => (0, syntax)
  | String c rest =>
      let neg := Ascii.eqb c "-"%char in
      let body := if Ascii.eqb c "+"%char || neg then rest else s in
      match body with
      | EmptyString => (0, syntax)
      | _ =>
          match ParseUint_digits body 0 with
          | (_, Some cause) =>
              if String.eqb cause ErrSyntax then (0, syntax)
              else ((if neg then - 2 ^ 63 else 2 ^ 63 - 1), range)
          | (un, None) =>
              if negb neg && (2 ^ 63 <=? un) then (2 ^ 63 - 1, range)
              else if neg && (2 ^ 63 <? un) then (- 2 ^ 63, range)
              else ((if neg then - un else un), None)
          end
      end
  end.

End strconv.

Module tls.

Inductive ClientAuthType : Type :=
| NoClientCert
| RequestClientCert
| RequireAnyClientCert
| VerifyClientCertIfGiven
| RequireAndVerifyClientCert.

Definition VersionTLS12 : Z := 771.

(** What [getTLS] takes from crypto/tls, crypto/x509 and io/ioutil.
    [ReadFile] reads the file system as it stands when [getTLS] runs;
    [AppendCertsFromPEM] returns the pool it leaves and its [ok]. *)
Class Lib : Type := {
  Certificate : Type;
  CertPool : Type;
  zeroCertificate : Certificate;
  ReadFile : string -> result slice;
  X509KeyPair : bytes -> bytes -> result Certificate;
  NewCertPool : CertPool;
  AppendCertsFromPEM : CertPool -> bytes -> CertPool * bool
}.

(** [tls.LoadX509KeyPair]: reads the certificate file, then the key file,
    and parses the pair. *)
Definition LoadX509KeyPair `{Lib} (certFile keyFile : string) : result Certificate :=
  let '(certPEMBlock, err) := ReadFile certFile in
  match err with
  | Some e => (zeroCertificate, Some e)
  | None =>
      let '(keyPEMBlock, err) := ReadFile keyFile in
      match err with
      | Some e => (zeroCertificate, Some e)
      | None => X509KeyPair (content certPEMBlock) (content keyPEMBlock)
      end
  end.

(** The fields of [tls.Config] that [getTLS] sets; [ClientCAs] is a
    pointer, nil unless set. *)
Record Config `{Lib} : Type := {
  MinVersion : Z;
  Certificates : list Certificate;
  ClientCAs : option CertPool;
  ClientAuth : ClientAuthType
}.

End tls.

Module time.

(** [time.Duration] is an [int64] count of nanoseconds. *)
Definition Duration : Type := Z.

Definition int64 (z : Z) : Z := (z + 2 ^ 63) mod 2 ^ 64 - 2 ^ 63.

Definition Second : Duration := 1000000000.

(** [a * b] on [time.Duration] operands, wrapping as [int64] does. *)
Definition mul (a b : Duration) : Duration := int64 (a * b).

End time.

Module keepalive.

Record EnforcementPolicy : Type := {
  MinTime : time.Duration;
  PermitWithoutStream : bool
}.

Record ServerParameters : Type := {
  MaxConnectionIdle : time.Duration;
  MaxConnectionAge : time.Duration;
  MaxConnectionAgeGrace : time.Duration;
  Time : time.Duration;
  Timeout : time.Duration
}.

End keepalive.

(** ** Package grpc *)

Module grpc.

(** The [grpc.ServerOption] values [getGrpcOptions] builds, by the
    constructor that made them. *)
Inductive ServerOption : Type :=
| grpc_MaxConcurrentStreams (n : Z)
| grpc_MaxRecvMsgSize (m : Z)
| grpc_KeepaliveEnforcementPolicy (kep : keepalive.EnforcementPolicy)
| grpc_KeepaliveParams (kp : keepalive.ServerParameters).

(** [type Config struct]; [int] and [uint32] fields hold integers, whose
    ranges are [Config_ok] below. *)
Record Config : Type := {
  Endpoint : string;
  Permission : Z;
  ForceSocketRemoval : bool;
  Network : string;
  MaxMsgSize : Z;
  MaxConcurrentStreams : Z;
  InsecureTransport : bool;
  Certfile : string;
  Keyfile : string;
  CAfiles : list string;
  ExtendedLogging : bool;
  PrometheusMetrics : bool;
  KeepaliveEnable : bool;
  KeepaliveClientPingMinTime : Z;
  KeepalivePermitWithoutStream : bool;
  KeepaliveIdlePingInterval : Z;
  KeepalivePingTimeout : Z;
  KeepaliveMaxConnectionAge : Z;
  KeepaliveMaxConnectionIdle : Z
}.

Definition is_uint32 (z : Z) : Prop := 0 <= z < 2 ^ 32.
Definition is_int (z : Z) : Prop := - 2 ^ 63 <= z < 2 ^ 63.

(** The ranges the field types of [Config] give. *)
Record Config_ok (cfg : Config) : Prop := {
  Permission_int : is_int (Permission cfg);
  MaxMsgSize_int : is_int (MaxMsgSize cfg);
  MaxConcurrentStreams_uint32 : is_uint32 (MaxConcurrentStreams cfg);
  ClientPingMinTime_uint32 : is_uint32 (KeepaliveClientPingMinTime cfg);
  IdlePingInterval_uint32 : is_uint32 (KeepaliveIdlePingInterval cfg);
  PingTimeout_uint32 : is_uint32 (KeepalivePingTimeout cfg);
  MaxConnectionAge_uint32 : is_uint32 (KeepaliveMaxConnectionAge cfg);
  MaxConnectionIdle_uint32 : is_uint32 (KeepaliveMaxConnectionIdle cfg)
}.

(** [kaep] after the two [if]s that may override its fields. *)
Definition kaep (cfg : Config) : keepalive.EnforcementPolicy :=
  let p :=
    {| keepalive.MinTime := 20 * time.Second;
       keepalive.PermitWithoutStream := false |} in
  let p :=
    if 0 <? KeepaliveClientPingMinTime cfg then
      {| keepalive.MinTime := time.mul (KeepaliveClientPingMinTime cfg) time.Second;
         keepalive.PermitWithoutStream := keepalive.PermitWithoutStream p |}
    else p in
  let p :=
    if KeepalivePermitWithoutStream cfg then
      {| keepalive.MinTime := keepalive.MinTime p;
         keepalive.PermitWithoutStream := KeepalivePermitWithoutStream cfg |}
    else p in
  p.

Definition set_Timeout (p : keepalive.ServerParameters) (d : time.Duration) :=
  {| keepalive.MaxConnectionIdle := keepalive.MaxConnectionIdle p;
     keepalive.MaxConnectionAge := keepalive.MaxConnectionAge p;
     keepalive.MaxConnectionAgeGrace := keepalive.MaxConnectionAgeGrace p;
     keepalive.Time := keepalive.Time p;
     keepalive.Timeout := d |}.

Definition set_Time (p : keepalive.ServerParameters) (d : time.Duration) :=
  {| keepalive.MaxConnectionIdle := keepalive.MaxConnectionIdle p;
     keepalive.MaxConnectionAge := keepalive.MaxConnectionAge p;
     keepalive.MaxConnectionAgeGrace := keepalive.MaxConnectionAgeGrace p;
     keepalive.Time := d;
     keepalive.Timeout := keepalive.Timeout p |}.

Definition set_MaxConnectionAge (p : keepalive.ServerParameters) (d : time.Duration) :=
  {| keepalive.MaxConnectionIdle := keepalive.MaxConnectionIdle p;
     keepalive.MaxConnectionAge := d;
     keepalive.MaxConnectionAgeGrace := keepalive.MaxConnectionAgeGrace p;
     keepalive.Time := keepalive.Time p;
     keepalive.Timeout := keepalive.Timeout p |}.

Definition set_MaxConnectionIdle (p : keepalive.ServerParameters) (d : time.Duration) :=
  {| keepalive.MaxConnectionIdle := d;
     keepalive.MaxConnectionAge := keepalive.MaxConnectionAge p;
     keepalive.MaxConnectionAgeGrace := keepalive.MaxConnectionAgeGrace p;
     keepalive.Time := keepalive.Time p;
     keepalive.Timeout := keepalive.Timeout p |}.

(** [kasp] after the four [if]s that may override its fields; the fields
    the literal leaves out start at zero. *)
Definition kasp (cfg : Config) : keepalive.ServerParameters :=
  let p :=
    {| keepalive.MaxConnectionIdle := 0;
       keepalive.MaxConnectionAge := 0;
       keepalive.MaxConnectionAgeGrace := 0;
       keepalive.Time := 7200 * time.Second;
       keepalive.Timeout := 20 * time.Second |} in
  let p :=
    if 0 <? KeepalivePingTimeout cfg
    then set_Timeout p (time.mul (KeepalivePingTimeout cfg) time.Second)
    else p in
  let p :=
    if 0 <? KeepaliveIdlePingInterval cfg
    then set_Time p (time.mul (KeepaliveIdlePingInterval cfg) time.Second)
    else p in
  let p :=
    if 0 <? KeepaliveMaxConnectionAge cfg
    then set_MaxConnectionAge p (time.mul (KeepaliveMaxConnectionAge cfg) time.Second)
    else p in
  let p :=
    if 0 <? KeepaliveMaxConnectionIdle cfg
    then set_MaxConnectionIdle p (time.mul (KeepaliveMaxConnectionIdle cfg) time.Second)
    else p in
  p.

(** [func (cfg *Config) getGrpcOptions() (opts []grpc.ServerOption)] *)
Definition getGrpcOptions (cfg : Config) : list ServerOption :=
  let opts : list ServerOption := [] in
  let opts :=
    if 0 <? MaxConcurrentStreams cfg
    then (opts ++ [grpc_MaxConcurrentStreams (MaxConcurrentStreams cfg)])%list
    else opts in
  let opts :=
    if 0 <? MaxMsgSize cfg
    then (opts ++ [grpc_MaxRecvMsgSize (MaxMsgSize cfg)])%list
    else opts in
  let opts :=
    if KeepaliveEnable cfg
    then (opts ++ [grpc_KeepaliveEnforcementPolicy (kaep cfg);
                   grpc_KeepaliveParams (kasp cfg)])%list
    else opts in
  opts.

Section TLS.
Context {lib : tls.Lib}.

Definition errAddCA (c : string) : error :=
  errorString ("failed to add CA from '" ++ c ++ "' file").

(** The [for _, c := range cfg.CAfiles] loop of [getTLS]: the pool once
    every file has been added, or the error of the [return] inside. *)
Fixpoint getTLS_range (files : list string) (caCertPool : tls.CertPool)
  : tls.CertPool + error :=
  match files with
  | [] => inl caCertPool
  | c :: files' =>
      let '(cert, err) := tls.ReadFile c in
      match err with
      | Some e => inr e
      | None =>
          let '(caCertPool', ok) := tls.AppendCertsFromPEM caCertPool (content cert) in
          if negb ok then inr (errAddCA c)
          else getTLS_range files' caCertPool'
      end
  end.

(** [func (cfg *Config) getTLS()], returning a [tls.Config] pointer (nil
    is [None]) and an [error]. *)
Definition getTLS (cfg : Config) : result (option tls.Config) :=
  if InsecureTransport cfg then (None, None)
  else if String.eqb (Certfile cfg) "" && String.eqb (Keyfile cfg) "" then (None, None)
  else
    let '(cert, err) := tls.LoadX509KeyPair (Certfile cfg) (Keyfile cfg) in
    match err with
    | Some e => (None, Some e)
    | None =>
        let tc :=
          {| tls.MinVersion := tls.VersionTLS12;
             tls.Certificates := [cert];
             tls.ClientCAs := None;
             tls.ClientAuth := tls.NoClientCert |} in
        if 0 <? Z.of_nat (List.length (CAfiles cfg)) then
          match getTLS_range (CAfiles cfg) tls.NewCertPool with
          | inr e => (None, Some e)
          | inl caCertPool =>
              (Some {| tls.MinVersion := tls.MinVersion tc;
                       tls.Certificates := tls.Certificates tc;
                       tls.ClientCAs := Some caCertPool;
                       tls.ClientAuth := tls.RequireAndVerifyClientCert |},
               None)
          end
        else (Some tc, None)
    end.

End TLS.

(** [func (cfg *Config) getSocketType() string] *)
Definition getSocketType (cfg : Config) : string :=
  if String.eqb (Network cfg) "" then "tcp" else Network cfg.

(** [func (cfg *Config) GetPort() int] *)
Definition GetPort (cfg : Config) : Z :=
  if negb (String.eqb (Endpoint cfg) "") && negb (String.eqb (Endpoint cfg) ":") then
    let index := strings.LastIndex (Endpoint cfg) ":" in
    if 0 <=? index then
      let '(port, err) :=
        strconv.Atoi (strings.string_from (Z.to_nat (index + 1)) (Endpoint cfg)) in
      match err with
      | None => port
      | Some _ => 0
      end
    else 0
  else 0.

(** *** Terms the statements about this package use *)

Definition is_keepalive (o : ServerOption) : bool :=
  match o with
  | grpc_KeepaliveEnforcementPolicy _ | grpc_KeepaliveParams _ => true
  | _ => false
  end.

(** The options that do not depend on the keepalive settings. *)
Definition limits (cfg : Config) : list ServerOption :=
  ((if 0 <? MaxConcurrentStreams cfg
    then [grpc_MaxConcurrentStreams (MaxConcurrentStreams cfg)] else []) ++
   (if 0 <? MaxMsgSize cfg
    then [grpc_MaxRecvMsgSize (MaxMsgSize cfg)] else []))%list.

(** A keepalive field after its override: the default when the override
    is zero, the override in seconds otherwise. *)
Definition overridden (default override : Z) : Z :=
  if override =? 0 then default else override * 1000000000.

(** TLS is left off without an error by the first two tests of [getTLS]. *)
Definition tls_off (cfg : Config) : Prop :=
  InsecureTransport cfg = true \/ (Certfile cfg = "" /\ Keyfile cfg = "").

Section CAfiles.
Context {lib : tls.Lib}.

(** What reading and adding one CA file yields. *)
Definition load_CA (pool : tls.CertPool) (c : string) : tls.CertPool + error :=
  match tls.ReadFile c with
  | (_, Some e) => inr e
  | (cert, None) =>
      let '(pool', ok) := tls.AppendCertsFromPEM pool (content cert) in
      if ok then inl pool' else inr (errAddCA c)
  end.

(** [pool_from pool files pool']: every file of [files] loads, and adding
    them to [pool] in their order leaves [pool']. *)
Inductive pool_from : tls.CertPool -> list string -> tls.CertPool -> Prop :=
| pool_from_nil : forall pool, pool_from pool [] pool
| pool_from_cons : forall pool c pool' files pool'',
    load_CA pool c = inl pool' ->
    pool_from pool' files pool'' ->
    pool_from pool (c :: files) pool''.

(** A CA file that cannot be read, or that no pool takes a certificate
    from. *)
Definition unusable_CA (c : string) : Prop :=
  snd (tls.ReadFile c) <> None \/
  forall pool, snd (tls.AppendCertsFromPEM pool (content (fst (tls.ReadFile c)))) = false.

End CAfiles.

Definition colon : ascii := ":"%char.

(** [s] has no [:] in it. *)
Fixpoint no_colon (s : string) : Prop :=
  match s with
  | EmptyString => True
  | String c s' => c <> colon /\ no_colon s'
  end.

Definition is_digit (d : Z) : Prop := 0 <= d <= 9.

(** The value of a digit sequence read left to right, continuing [acc]. *)
Fixpoint digits_value (ds : list Z) (acc : Z) : Z :=
  match ds with
  | [] => acc
  | d :: ds' => digits_value ds' (acc * 10 + d)
  end.

Definition digit_char (d : Z) : ascii := ascii_of_N (Z.to_N (48 + d)).

(** The decimal numeral with the digits [ds]. *)
Fixpoint digits_string (ds : list Z) : string :=
  match ds with
  | [] => EmptyString
  | d :: ds' => String (digit_char d) (digits_string ds')
  end.

End grpc.

(** ** Executable instances of the library interfaces *)

(** The base64 format [base64.URLEncoding] writes: the alphabet of
    RFC 4648 section 5 with [=] padding.  The decoder accepts exactly the
    padded form.  It is stricter than Go's in one respect and coarser in
    another: the line breaks Go's decoder skips are rejected here, and
    the offset in the error for a short last group, or for [=] followed by
    another character, need not be the one Go reports.  The instance
    serves to run the examples; the theorems on [cryptodata] are stated for
    every [base64.Encoding] that obeys the contract. *)
Module base64url.

Definition encodeURL : string :=
  "ABCDEFGHIJKLMNOPQRSTUVWXYZabcdefghijklmnopqrstuvwxyz0123456789-_".

Definition padChar : ascii := "="%char.

Definition enc6 (n : N) : ascii :=
  nth (N.to_nat n) (list_ascii_of_string encodeURL) padChar.

Fixpoint index_of (c : ascii) (l : list ascii) (i : N) : option N :=
  match l with
  | [] => None
  | x :: l' => if Ascii.eqb x c then Some i else index_of c l' (N.succ i)
  end.

Definition dec6 (c : ascii) : option N :=
  index_of c (list_ascii_of_string encodeURL) 0%N.

Definition mkbyte (n : N) : byte :=
  match Byte.of_N n with
  | Some b => b
  | None => x00
  end.

Local Open Scope N_scope.

Fixpoint encode (src : bytes) : string :=
  match src with
  | [] => EmptyString
  | [a] =>
      let x := Byte.to_N a in
      String (enc6 (x / 4)) (String (enc6 (x mod 4 * 16))
        (String padChar (String padChar EmptyString)))
  | [a; b] =>
      let x := Byte.to_N a in
      let y := Byte.to_N b in
      String (enc6 (x / 4)) (String (enc6 (x mod 4 * 16 + y / 16))
        (String (enc6 (y mod 16 * 4)) (String padChar EmptyString)))
  | a :: b :: c :: rest =>
      let x := Byte.to_N a in
      let y := Byte.to_N b in
      let z := Byte.to_N c in
      String (enc6 (x / 4)) (String (enc6 (x mod 4 * 16 + y / 16))
        (String (enc6 (y mod 16 * 4 + z / 64)) (String (enc6 (z mod 64))
          (encode rest))))
  end.

Definition corrupt (off : Z) : option error := Some (CorruptInputError off).

Fixpoint decode (s : string) (off : Z) : result bytes :=
  match s with
  | EmptyString => ([], None)
  | String c0 (String c1 (String c2 (String c3 rest))) =>
      match dec6 c0, dec6 c1 with
      | None, _ => ([], corrupt off)
      | Some _, None => ([], corrupt (off + 1))
      | Some p, Some q =>
          let b0 := mkbyte (p * 4 + q / 16) in
          if Ascii.eqb c2 padChar then
            if Ascii.eqb c3 padChar then
              match rest with
              | EmptyString => ([b0], None)
              | _ => ([b0], corrupt (off + 4))
              end
            else ([], corrupt (off + 3))
          else
            match dec6 c2 with
            | None => ([], corrupt (off + 2))
            | Some r =>
                let b1 := mkbyte (q mod 16 * 16 + r / 4) in
                if Ascii.eqb c3 padChar then
                  match rest with
                  | EmptyString => ([b0; b1], None)
                  | _ => ([b0; b1], corrupt (off + 4))
                  end
                else
                  match dec6 c3 with
                  | None => ([b0; b1], corrupt (off + 3))
                  | Some t =>
                      let b2 := mkbyte (r mod 4 * 64 + t) in
                      let '(more, err) := decode rest (off + 4) in
                      (b0 :: b1 :: b2 :: more, err)
                  end
            end
      end
  | _ => ([], corrupt (off + Z.of_nat (String.length s)))
  end.

#[export] Instance URLEncoding : base64.Encoding := {
  base64.EncodeToString := encode;
  base64.DecodeString := fun s => decode s 0%Z
}.

End base64url.

(** A miniature of the OAEP interface to compute with: keys are one byte,
    a ciphertext is the key byte, one byte drawn from the reader and the
    message.  It is no cipher; it obeys the contract the proofs assume of
    crypto/rsa. *)
Module envelope.

Definition Size : Z := 16.
Definition hash_Size : Z := 4.

Definition seal (r : N) (pub : byte) (msg : bytes) : result slice * N :=
  if Size - 2 * hash_Size - 2 <? len msg
  then ((None, Some ErrMessageTooLong), r)
  else ((Some (pub :: base64url.mkbyte (r mod 256) :: msg), None), N.succ r).

Definition open (r : N) (priv : byte) (ct : bytes) : result slice * N :=
  match ct with
  | k :: _ :: msg =>
      if Byte.eqb k priv then ((Some msg, None), r)
      else ((None, Some ErrDecryption), r)
  | _ => ((None, Some ErrDecryption), r)
  end.

#[export] Instance lib : rsa.Lib := {
  rsa.PublicKey := byte;
  rsa.PrivateKey := byte;
  rsa.hash_Hash := unit;
  rsa.io_Reader := N;
  rsa.Size := fun _ => Size;
  rsa.hash_Size := fun _ => hash_Size;
  rsa.KeyPair := fun pub priv => pub = priv;
  rsa.EncryptOAEP := fun _ r pub msg _ => seal r pub msg;
  rsa.DecryptOAEP := fun _ r priv ct _ => open r priv ct
}.

End envelope.

(** A file system with a certificate, a key and one CA bundle, and a PEM
    reader that accepts any non-empty block. *)
Module testfs.

Definition ReadFile (name : string) : result slice :=
  if String.eqb name "server.crt" then (Some (list_byte_of_string "CERT"), None)
  else if String.eqb name "server.key" then (Some (list_byte_of_string "KEY"), None)
  else if String.eqb name "ca.pem" then (Some (list_byte_of_string "CA"), None)
  else if String.eqb name "empty.pem" then (Some [], None)
  else (None, Some (PathError "open" name "no such file or directory")).

Definition X509KeyPair (certPEMBlock keyPEMBlock : bytes) : result (bytes * bytes) :=
  match certPEMBlock, keyPEMBlock with
  | _ :: _, _ :: _ => ((certPEMBlock, keyPEMBlock), None)
  | _, _ => (([], []), Some (OtherError "tls" "failed to find any PEM data"))
  end.

Definition AppendCertsFromPEM (pool : list bytes) (pem : bytes) : list bytes * bool :=
  match pem with
  | [] => (pool, false)
  | _ => ((pool ++ [pem])%list, true)
  end.

#[export] Instance lib : tls.Lib := {
  tls.Certificate := (bytes * bytes)%type;
  tls.CertPool := list bytes;
  tls.zeroCertificate := ([], []);
  tls.ReadFile := ReadFile;
  tls.X509KeyPair := X509KeyPair;
  tls.NewCertPool := [];
  tls.AppendCertsFromPEM := AppendCertsFromPEM
}.

End testfs.

(** Values the statements are exercised on. *)
Module examples.
Import cryptodata grpc.

Definition pubB : @rsa.PublicKey envelope.lib := "B"%byte.
Definition keyA : @rsa.PrivateKey envelope.lib := "A"%byte.
Definition keyB : @rsa.PrivateKey envelope.lib := "B"%byte.

(** A client of the miniature library with the given keyring, before any
    call. *)
Definition keyring (keys : list byte) : @State envelope.lib :=
  {| client := {| PrivateKeys := keys : list (@rsa.PrivateKey envelope.lib);
                  Reader := 7%N : @rsa.io_Reader envelope.lib;
                  Hash := tt : @rsa.hash_Hash envelope.lib |};
     calls := [] |}.

Definition secret : bytes := list_byte_of_string "secret".
Definition long_secret : bytes := list_byte_of_string "a longer secret".

(** What [EncryptData secret pubB] writes when the reader stands at 7. *)
Definition sealed : bytes := list_byte_of_string "QgdzZWNyZXQ=".

(** The zero [Config] but for the endpoint and the TLS fields. *)
Definition config (endpoint : string) (insecure : bool) (cert key : string)
    (cas : list string) : Config :=
  {| Endpoint := endpoint;
     Permission := 0;
     ForceSocketRemoval := false;
     Network := "";
     MaxMsgSize := 0;
     MaxConcurrentStreams := 0;
     InsecureTransport := insecure;
     Certfile := cert;
     Keyfile := key;
     CAfiles := cas;
     ExtendedLogging := false;
     PrometheusMetrics := false;
     KeepaliveEnable := false;
     KeepaliveClientPingMinTime := 0;
     KeepalivePermitWithoutStream := false;
     KeepaliveIdlePingInterval := 0;
     KeepalivePingTimeout := 0;
     KeepaliveMaxConnectionAge := 0;
     KeepaliveMaxConnectionIdle := 0 |}.

(** A [Config] with message and stream limits and the given keepalive
    settings. *)
Definition keepalive_config (enable : bool) (minTime idle timeout age : Z) : Config :=
  {| Endpoint := "0.0.0.0:9111";
     Permission := 0;
     ForceSocketRemoval := false;
     Network := "";
     MaxMsgSize := 4096;
     MaxConcurrentStreams := 8;
     InsecureTransport := true;
     Certfile := "";
     Keyfile := "";
     CAfiles := [];
     ExtendedLogging := false;
     PrometheusMetrics := false;
     KeepaliveEnable := enable;
     KeepaliveClientPingMinTime := minTime;
     KeepalivePermitWithoutStream := false;
     KeepaliveIdlePingInterval := idle;
     KeepalivePingTimeout := timeout;
     KeepaliveMaxConnectionAge := age;
     KeepaliveMaxConnectionIdle := 0 |}.

End examples.

(** ** More of package cryptodata: building a client *)

Module clientconfig.
Import rsa.

(** [rand.Reader] and a fresh [sha256.New()], the defaults of [NewClient]. *)
Class Defaults {lib : Lib} : Type := {
  rand_Reader : io_Reader;
  sha256_New : hash_Hash
}.

Section NewClient.
Context {lib : Lib} {defaults : Defaults}.

(** [type ClientConfig struct]: [Reader] and [Hash] are interface values,
    nil ([None]) when the caller leaves them out. *)
Record ClientConfig : Type := {
  PrivateKeys : list PrivateKey;
  Reader : option io_Reader;
  Hash : option hash_Hash
}.

(** [func NewClient(clientConfig ClientConfig) (client *Client)] *)
Definition NewClient (clientConfig : ClientConfig) : cryptodata.Client :=
  {| cryptodata.PrivateKeys := PrivateKeys clientConfig;
     cryptodata.Reader :=
       match Reader clientConfig with
       | None => rand_Reader
       | Some r => r
       end;
     cryptodata.Hash :=
       match Hash clientConfig with
       | None => sha256_New
       | Some h => h
       end |}.

(** The hash a client built from [clientConfig] works with. *)
Definition effective_Hash (clientConfig : ClientConfig) : hash_Hash :=
  match Hash clientConfig with
  | None => sha256_New
  | Some h => h
  end.

(** A client just built, before any call. *)
Definition started (client : cryptodata.Client) : cryptodata.State :=
  {| cryptodata.client := client; cryptodata.calls := [] |}.

End NewClient.

Arguments ClientConfig {lib}.

End clientconfig.

(** ** More of package grpc: the port flag *)

Module flag.

(** One entry of a flag set: [Name], [Usage] and [DefValue] of [flag.Flag]. *)
Record Flag : Type := {
  Name : string;
  Usage : string;
  DefValue : string
}.

(** The flags of [flag.CommandLine], in the order they were defined. *)
Definition FlagSet : Type := list Flag.

Definition Lookup (fs : FlagSet) (name : string) : option Flag :=
  find (fun f => String.eqb (Name f) name) fs.

(** The names the library accepts.  Releases of Go since 1.17 refuse a
    name that begins with [-] or contains [=]; earlier ones accept every
    name. *)
Class Checks : Type := {
  well_formed : string -> bool
}.

(** A call either returns, leaving a flag set, or panics: because the
    library refuses the name, or because the flag named was already
    defined. *)
Inductive outcome : Type :=
| Returns (fs : FlagSet)
| PanicBadName (name : string)
| PanicRedefined (name : string).

(** [flag.String(name, value, usage)]: defines a string flag.  The name
    is checked first; defining a name twice panics. *)
Definition String_ {checks : Checks} (name value usage : string) (fs : FlagSet)
  : outcome :=
  if well_formed name then
    match Lookup fs name with
    | Some _ => PanicRedefined name
    | None =>
        Returns (fs ++ [{| Name := name; Usage := usage; DefValue := value |}])%list
    end
  else PanicBadName name.

End flag.

Module grpcflag.

(** [strings.ToUpper], [strings.ToLower] and the constant
    [config.EnvSuffix], which the package takes from elsewhere. *)
Class Env : Type := {
  ToUpper : string -> string;
  ToLower : string -> string;
  EnvSuffix : string
}.

Section Flags.
Context {env : Env} {checks : flag.Checks}.

(** [func grpcPortFlag(pluginName infra.PluginName) string] *)
Definition grpcPortFlag (pluginName : string) : string :=
  ToLower pluginName ++ "-port".

(** [func DeclareGRPCPortFlag(pluginName infra.PluginName)], on the flag
    set of the process. *)
Definition DeclareGRPCPortFlag (pluginName : string) (fs : flag.FlagSet)
  : flag.outcome :=
  let plugNameUpper := ToUpper pluginName in
  let usage :=
    "Configure Agent' " ++ plugNameUpper ++
    " net listener (port & timeouts); also set via '" ++
    plugNameUpper ++ EnvSuffix ++ "' env variable." in
  flag.String_ (grpcPortFlag pluginName) "" usage fs.

End Flags.

End grpcflag.

(** ** Package resync: building the plugin *)

Module resync.

(** [logging.ForPlugin(name, logrus.DefaultRegistry)], and whatever
    [Plugin] holds besides the name and the logger of its [Deps]: the code
    here starts it at its zero value and does not touch it. *)
Class Env : Type := {
  PluginLogger : Type;
  ForPlugin : string -> PluginLogger;
  Rest : Type;
  zeroRest : Rest
}.

Section Plugin.
Context {env : Env}.

(** [type Deps struct]: the plugin name and its logger, nil when unset. *)
Record Deps : Type := {
  PluginName : string;
  Log : option PluginLogger
}.

Record Plugin : Type := {
  Deps_ : Deps;
  rest : Rest
}.

(** [type Option]: a function on a [Plugin] pointer, here what it leaves
    of the plugin it is handed. *)
Definition Option : Type := Plugin -> Plugin.

(** [func UseDeps(deps Deps) Option] *)
Definition UseDeps (deps : Deps) : Option :=
  fun p =>
    {| Deps_ := {| PluginName := PluginName deps; Log := Log deps |};
       rest := rest p |}.

(** The [for _, o := range opts] loop of [NewPlugin], from the zero
    [Plugin]. *)
Definition apply_options (opts : list Option) : Plugin :=
  fold_left (fun p o => o p) opts
    {| Deps_ := {| PluginName := ""; Log := None |}; rest := zeroRest |}.

(** [func NewPlugin(opts ...Option) *Plugin] *)
Definition NewPlugin (opts : list Option) : Plugin :=
  let p := apply_options opts in
  let deps := Deps_ p in
  let deps :=
    if String.eqb (PluginName deps) ""
    then {| PluginName := "resync"; Log := Log deps |}
    else deps in
  let deps :=
    match Log deps with
    | None => {| PluginName := PluginName deps;
                 Log := Some (ForPlugin (PluginName deps)) |}
    | Some _ => deps
    end in
  {| Deps_ := deps; rest := rest p |}.

(** [var DefaultPlugin = NewPlugin()] *)
Definition DefaultPlugin : Plugin := NewPlugin [].

End Plugin.

End resync.

(** ** More terms for the statements about package grpc *)

Module grpc_terms.
Import grpc.

(** The place of each kind of option in the list [getGrpcOptions] builds. *)
Definition rank (o : ServerOption) : nat :=
  match o with
  | grpc_MaxConcurrentStreams _ => 0
  | grpc_MaxRecvMsgSize _ => 1
  | grpc_KeepaliveEnforcementPolicy _ => 2
  | grpc_KeepaliveParams _ => 3
  end.

Section TLSConfigs.
Context {lib : tls.Lib}.

(** The configuration of a server that asks no certificate of its
    clients. *)
Definition server_only (cert : tls.Certificate) : tls.Config :=
  {| tls.MinVersion := tls.VersionTLS12;
     tls.Certificates := [cert];
     tls.ClientCAs := None;
     tls.ClientAuth := tls.NoClientCert |}.

(** The configuration of a server that verifies its clients against
    [pool]. *)
Definition mutual (cert : tls.Certificate) (pool : tls.CertPool) : tls.Config :=
  {| tls.MinVersion := tls.VersionTLS12;
     tls.Certificates := [cert];
     tls.ClientCAs := Some pool;
     tls.ClientAuth := tls.RequireAndVerifyClientCert |}.

End TLSConfigs.

(** A character that is no decimal digit. *)
Definition not_digit (c : ascii) : Prop := strconv.digit c = None.

End grpc_terms.

(** ** Instances and values for the added packages *)

Module ascii_case.

Definition upper (c : ascii) : ascii :=
  let n := N_of_ascii c in
  if (97 <=? n)%N && (n <=? 122)%N then ascii_of_N (n - 32) else c.

Definition lower (c : ascii) : ascii :=
  let n := N_of_ascii c in
  if (65 <=? n)%N && (n <=? 90)%N then ascii_of_N (n + 32) else c.

Fixpoint map_string (f : ascii -> ascii) (s : string) : string :=
  match s with
  | EmptyString => EmptyString
  | String c s' => String (f c) (map_string f s')
  end.

(** The case functions on ASCII text, with cn-infra's suffix. *)
#[export] Instance env : grpcflag.Env := {
  grpcflag.ToUpper := map_string upper;
  grpcflag.ToLower := map_string lower;
  grpcflag.EnvSuffix := "_CONFIG"
}.

End ascii_case.

Module flag_checks.

Fixpoint contains_char (c : ascii) (s : string) : bool :=
  match s with
  | EmptyString => false
  | String c' s' => Ascii.eqb c c' || contains_char c s'
  end.

(** The check of [flag.Var] in Go 1.17 and later. *)
#[export] Instance since_1_17 : flag.Checks := {
  flag.well_formed := fun name =>
    negb (String.prefix "-" name) && negb (contains_char "=" name)
}.

(** The flag package before Go 1.17 checks no name. *)
#[export] Instance before_1_17 : flag.Checks := {
  flag.well_formed := fun _ => true
}.

End flag_checks.

Module examples_more.

#[export] Instance envelope_defaults : @clientconfig.Defaults envelope.lib := {
  clientconfig.rand_Reader := 0%N : @rsa.io_Reader envelope.lib;
  clientconfig.sha256_New := tt : @rsa.hash_Hash envelope.lib
}.

(** A configuration with a keyring and nothing else set. *)
Definition keys_only (keys : list byte) : @clientconfig.ClientConfig envelope.lib :=
  {| clientconfig.PrivateKeys := keys : list (@rsa.PrivateKey envelope.lib);
     clientconfig.Reader := None;
     clientconfig.Hash := None |}.

(** Loggers that are the name they were made for. *)
#[export] Instance named_loggers : resync.Env := {
  resync.PluginLogger := string;
  resync.ForPlugin := fun name => name;
  resync.Rest := unit;
  resync.zeroRest := tt
}.

End examples_more.

Module base64url_facts.
Import base64url.
Local Open Scope N_scope.

Lemma below64 : forall n, n < 64 -> In n (map N.of_nat (seq 0 64)).
Proof.
  intros n H. rewrite <- (N2Nat.id n). apply in_map. apply in_seq. lia.
Qed.

Lemma sextet_table :
  forallb (fun n => match dec6 (enc6 n) with
                    | Some m => N.eqb m n && negb (Ascii.eqb (enc6 n) padChar)
                    | None => false
                    end) (map N.of_nat (seq 0 64)) = true.
Proof. vm_compute. reflexivity. Qed.

Lemma dec6_enc6 : forall n, n < 64 -> dec6 (enc6 n) = Some n.
Proof.
  intros n H. pose proof sextet_table as T. rewrite forallb_forall in T.
  specialize (T n (below64 n H)). destruct (dec6 (enc6 n)) as [m|]; [|discriminate].
  apply andb_true_iff in T. destruct T as [T _]. apply N.eqb_eq in T. now subst.
Qed.

Lemma enc6_not_pad : forall n, n < 64 -> Ascii.eqb (enc6 n) padChar = false.
Proof.
  intros n H. pose proof sextet_table as T. rewrite forallb_forall in T.
  specialize (T n (below64 n H)). destruct (dec6 (enc6 n)) as [m|]; [|discriminate].
  apply andb_true_iff in T. destruct T as [_ T]. now apply negb_true_iff in T.
Qed.

Lemma mkbyte_to_N : forall b, mkbyte (Byte.to_N b) = b.
Proof. intros b. unfold mkbyte. now rewrite Byte.of_to_N. Qed.

Lemma to_N_lt : forall b, Byte.to_N b < 256.
Proof. intros b. pose proof (Byte.to_N_bounded b). lia. Qed.

Ltac byte_arith :=
  repeat match goal with
         | b : byte |- _ =>
             lazymatch goal with
             | _ : Byte.to_N b < 256 |- _ => fail
             | _ => pose proof (to_N_lt b)
             end
         end;
  zify; Z.to_euclidean_division_equations; lia.

Lemma list_ind3 {A} (P : list A -> Prop) :
  P [] -> (forall a, P [a]) -> (forall a b, P [a; b]) ->
  (forall a b c l, P l -> P (a :: b :: c :: l)) ->
  forall l, P l.
Proof.
  intros H0 H1 H2 H3. fix IH 1.
  intros [|a [|b [|c l]]];
    [apply H0 | apply H1 | apply H2 | apply H3, IH].
Qed.

(** One full group: three bytes become four characters and come back. *)
Lemma decode_group :
  forall a b c rest off,
    decode (encode (a :: b :: c :: rest)) off =
      let '(more, err) := decode (encode rest) (off + 4)%Z in
      (a :: b :: c :: more, err).
Proof.
  intros a b c rest off.
  cbn [encode]. cbv zeta.
  set (x := Byte.to_N a). set (y := Byte.to_N b). set (z := Byte.to_N c).
  cbn [decode].
  rewrite !dec6_enc6 by (subst x y z; byte_arith).
  rewrite !enc6_not_pad by (subst x y z; byte_arith).
  replace (x / 4 * 4 + (x mod 4 * 16 + y / 16) / 16) with x by (subst x y z; byte_arith).
  replace ((x mod 4 * 16 + y / 16) mod 16 * 16 + (y mod 16 * 4 + z / 64) / 4)
    with y by (subst x y z; byte_arith).
  replace ((y mod 16 * 4 + z / 64) mod 4 * 64 + z mod 64)
    with z by (subst x y z; byte_arith).
  subst x y z. rewrite !mkbyte_to_N. reflexivity.
Qed.

Lemma decode_tail1 :
  forall a off, decode (encode [a]) off = ([a], None).
Proof.
  intros a off. cbn [encode]. cbv zeta. set (x := Byte.to_N a).
  cbn [decode].
  rewrite !dec6_enc6 by (subst x; byte_arith).
  replace (x / 4 * 4 + x mod 4 * 16 / 16) with x by (subst x; byte_arith).
  subst x. rewrite mkbyte_to_N. reflexivity.
Qed.

Lemma decode_tail2 :
  forall a b off, decode (encode [a; b]) off = ([a; b], None).
Proof.
  intros a b off. cbn [encode]. cbv zeta.
  set (x := Byte.to_N a). set (y := Byte.to_N b).
  cbn [decode].
  rewrite !dec6_enc6 by (subst x y; byte_arith).
  rewrite !enc6_not_pad by (subst x y; byte_arith).
  replace (x / 4 * 4 + (x mod 4 * 16 + y / 16) / 16) with x by (subst x y; byte_arith).
  replace ((x mod 4 * 16 + y / 16) mod 16 * 16 + y mod 16 * 4 / 4)
    with y by (subst x y; byte_arith).
  subst x y. rewrite !mkbyte_to_N. reflexivity.
Qed.

(** Decoding what was encoded gives the bytes back, with no error. *)
Lemma decode_encode :
  forall (b : bytes) (off : Z), decode (encode b) off = (b, None).
Proof.
  induction b as [| a | a b | a b c rest IH] using list_ind3; intros off.
  - reflexivity.
  - apply decode_tail1.
  - apply decode_tail2.
  - rewrite decode_group, IH. reflexivity.
Qed.

Lemma url_DecodeString_EncodeToString :
  forall b : bytes, base64.DecodeString (base64.EncodeToString b) = (b, None).
Proof. intros b. apply decode_encode. Qed.

Lemma url_EncodeToString_nil : base64.EncodeToString [] = EmptyString.
Proof. reflexivity. Qed.

(** The test vectors of RFC 4648 section 10 and one that needs the two
    characters of the URL alphabet. *)
Example encode_vectors :
  map (fun s => encode (list_byte_of_string s))
    ["f"; "fo"; "foo"; "foob"; "fooba"; "foobar"; "hello?>~"]%string =
  ["Zg=="; "Zm8="; "Zm9v"; "Zm9vYg=="; "Zm9vYmE="; "Zm9vYmFy"; "aGVsbG8_Pn4="]%string.
Proof. vm_compute. reflexivity. Qed.

Example decode_rejects :
  decode "Zm9v*mFy" 0 = (list_byte_of_string "foo", Some (CorruptInputError 4)) /\
  decode "Zm9vYg=" 0 = (list_byte_of_string "foo", Some (CorruptInputError 7)).
Proof. vm_compute. split; reflexivity. Qed.

Lemma decode_error :
  forall s off b e, decode s off = (b, Some e) -> exists n, e = CorruptInputError n.
Proof.
  fix IH 1. intros s off b e.
  destruct s as [|c0 [|c1 [|c2 [|c3 rest]]]]; cbn [decode]; unfold corrupt;
    try (intros H; injection H as _ <-; eexists; reflexivity).
  - discriminate.
  - destruct (dec6 c0); [|intros H; injection H as _ <-; eexists; reflexivity].
    destruct (dec6 c1); [|intros H; injection H as _ <-; eexists; reflexivity].
    destruct (Ascii.eqb c2 padChar).
    + destruct (Ascii.eqb c3 padChar);
        [destruct rest|]; intros H; try discriminate H;
        injection H as _ <-; eexists; reflexivity.
    + destruct (dec6 c2); [|intros H; injection H as _ <-; eexists; reflexivity].
      destruct (Ascii.eqb c3 padChar).
      * destruct rest; intros H; try discriminate H;
          injection H as _ <-; eexists; reflexivity.
      * destruct (dec6 c3); [|intros H; injection H as _ <-; eexists; reflexivity].
        destruct (decode rest (off + 4)%Z) as [more [e'|]] eqn:E; intros H.
        -- injection H as _ <-. apply (IH rest _ _ _ E).
        -- discriminate H.
Qed.

Lemma url_DecodeString_error :
  forall s b e, base64.DecodeString s = (b, Some e) -> exists off, e = CorruptInputError off.
Proof. intros s b e. apply decode_error. Qed.

End base64url_facts.

Module envelope_facts.
Import rsa envelope.

Lemma envelope_EncryptOAEP_fits :
  forall (h : hash_Hash) (r : io_Reader) (pub : PublicKey) (priv : PrivateKey) msg,
    KeyPair pub priv ->
    len msg <= rsa.Size pub - 2 * rsa.hash_Size h - 2 ->
    exists ct r', EncryptOAEP h r pub msg None = ((Some ct, None), r').
Proof.
  intros h r pub priv msg _ Hlen. cbn in *. unfold seal, Size, hash_Size in *.
  destruct (Z.ltb_spec (16 - 2 * 4 - 2) (len msg)); [lia|].
  eexists; eexists; reflexivity.
Qed.

Lemma envelope_EncryptOAEP_too_long :
  forall (h : hash_Hash) (r : io_Reader) (pub : PublicKey) msg,
    rsa.Size pub - 2 * rsa.hash_Size h - 2 < len msg ->
    exists e r', EncryptOAEP h r pub msg None = ((None, Some e), r').
Proof.
  intros h r pub msg Hlen. cbn in *. unfold seal, Size, hash_Size in *.
  destruct (Z.ltb_spec (16 - 2 * 4 - 2) (len msg)); [|lia].
  eexists; eexists; reflexivity.
Qed.

Lemma seal_inv :
  forall r pub msg ct r',
    seal r pub msg = ((Some ct, None), r') ->
    ct = pub :: base64url.mkbyte (r mod 256) :: msg.
Proof.
  intros r pub msg ct r'. unfold seal.
  destruct (Size - 2 * hash_Size - 2 <? len msg); [discriminate|].
  intros H. now injection H as <- _.
Qed.

Lemma envelope_DecryptOAEP_EncryptOAEP :
  forall (h : hash_Hash) (r r' : io_Reader) (pub : PublicKey) (priv : PrivateKey) msg ct,
    KeyPair pub priv ->
    EncryptOAEP h r pub msg None = ((Some ct, None), r') ->
    forall r2, exists r3, DecryptOAEP h r2 priv ct None = ((Some msg, None), r3).
Proof.
  intros h r r' pub priv msg ct Hpair Henc r2. cbn in *. subst priv.
  rewrite (seal_inv _ _ _ _ _ Henc). unfold open.
  rewrite Byte.byte_dec_lb by reflexivity. now exists r2.
Qed.

Lemma envelope_DecryptOAEP_genuine :
  forall (h : hash_Hash) (r r' : io_Reader) (pub : PublicKey) msg ct
         (key : PrivateKey) (r2 : io_Reader) d (r3 : io_Reader),
    EncryptOAEP h r pub msg None = ((Some ct, None), r') ->
    DecryptOAEP h r2 key ct None = ((d, None), r3) ->
    d = Some msg.
Proof.
  intros h r r' pub msg ct key r2 d r3 Henc. cbn in *.
  rewrite (seal_inv _ _ _ _ _ Henc). unfold open.
  destruct (Byte.eqb pub key); intros H; [now injection H as <- | discriminate].
Qed.

End envelope_facts.


(** * Properties of package cryptodata *)

Module cryptodata_spec.
Import base64 rsa cryptodata.

Section Loop.
Context {enc : Encoding} {lib : Lib}.

Lemma rsa_DecryptOAEP_run :
  forall (key : PrivateKey) (ct : bytes) (s : State) res r',
    DecryptOAEP (Hash (client s)) (Reader (client s)) key ct None = (res, r') ->
    rsa_DecryptOAEP key ct None s =
      (res, {| client := with_Reader (client s) r';
               calls := (calls s ++ [CallDecryptOAEP key])%list |}).
Proof.
  intros key ct s res r' H. unfold rsa_DecryptOAEP. rewrite H. reflexivity.
Qed.

(** One turn of the loop: a failed attempt moves on to the next key. *)
Lemma DecryptData_range_cons :
  forall key keys ct (s : State) d e r',
    DecryptOAEP (Hash (client s)) (Reader (client s)) key ct None = ((d, e), r') ->
    DecryptData_range (key :: keys) ct s =
      let s' := {| client := with_Reader (client s) r';
                   calls := (calls s ++ [CallDecryptOAEP key])%list |} in
      match e with
      | None => ((d, None), s')
      | Some _ => DecryptData_range keys ct s'
      end.
Proof.
  intros key keys ct s d e r' H. simpl. unfold bind.
  rewrite (rsa_DecryptOAEP_run _ _ _ _ _ H). destruct e; reflexivity.
Qed.

(** Keys that all fail are all tried, in order, and then the loop gives up. *)
Lemma DecryptData_range_all_fail :
  forall keys ct (s : State),
    (forall k r, In k keys ->
       snd (fst (DecryptOAEP (Hash (client s)) r k ct None)) <> None) ->
    exists r',
      DecryptData_range keys ct s =
        ((None, Some errNoKey),
         {| client := with_Reader (client s) r';
            calls := (calls s ++ map CallDecryptOAEP keys)%list |}).
Proof.
  induction keys as [|key keys IH]; intros ct s Hfail.
  - exists (Reader (client s)). simpl. unfold ret.
    rewrite app_nil_r. destruct s as [[ks r h] cs]; reflexivity.
  - destruct (DecryptOAEP (Hash (client s)) (Reader (client s)) key ct None)
      as [[d e] r1] eqn:E.
    rewrite (DecryptData_range_cons _ _ _ _ _ _ _ E).
    destruct e as [e|].
    + cbv zeta.
      destruct (IH ct {| client := with_Reader (client s) r1;
                         calls := (calls s ++ [CallDecryptOAEP key])%list |})
        as [r' Hr'].
      { intros k r Hk. simpl. apply Hfail. now right. }
      exists r'. rewrite Hr'. simpl. rewrite <- app_assoc. reflexivity.
    + exfalso. apply (Hfail key (Reader (client s))); [now left|].
      rewrite E. reflexivity.
Qed.

(** The first key that succeeds ends the loop; later keys are not tried. *)
Lemma DecryptData_range_first :
  forall pre key post ct m (s : State),
    (forall k r, In k pre ->
       snd (fst (DecryptOAEP (Hash (client s)) r k ct None)) <> None) ->
    (forall r, fst (DecryptOAEP (Hash (client s)) r key ct None) = (m, None)) ->
    exists r',
      DecryptData_range (pre ++ key :: post) ct s =
        ((m, None),
         {| client := with_Reader (client s) r';
            calls := (calls s ++ map CallDecryptOAEP (pre ++ [key]))%list |}).
Proof.
  induction pre as [|k0 pre IH]; intros key post ct m s Hfail Hok.
  - destruct (DecryptOAEP (Hash (client s)) (Reader (client s)) key ct None)
      as [[d e] r1] eqn:E.
    simpl app. rewrite (DecryptData_range_cons _ _ _ _ _ _ _ E).
    pose proof (Hok (Reader (client s))) as Hk. rewrite E in Hk. simpl in Hk.
    injection Hk as -> ->. exists r1. reflexivity.
  - destruct (DecryptOAEP (Hash (client s)) (Reader (client s)) k0 ct None)
      as [[d e] r1] eqn:E.
    simpl app. rewrite (DecryptData_range_cons _ _ _ _ _ _ _ E).
    destruct e as [e|].
    + cbv zeta.
      destruct (IH key post ct m
                  {| client := with_Reader (client s) r1;
                     calls := (calls s ++ [CallDecryptOAEP k0])%list |})
        as [r' Hr'].
      { intros k r Hk. simpl. apply Hfail. now right. }
      { intros r. simpl. apply Hok. }
      exists r'. rewrite Hr'. simpl. rewrite <- app_assoc. reflexivity.
    + exfalso. apply (Hfail k0 (Reader (client s))); [now left|].
      rewrite E. reflexivity.
Qed.

(** Whenever the loop reports an error, the data it returns is nil. *)
Lemma DecryptData_range_error_nil :
  forall keys ct (s s' : State) d e,
    DecryptData_range keys ct s = ((d, Some e), s') -> d = None /\ e = errNoKey.
Proof.
  induction keys as [|key keys IH]; intros ct s s' d e H.
  - simpl in H. unfold ret in H. injection H as <- <- _. now split.
  - destruct (DecryptOAEP (Hash (client s)) (Reader (client s)) key ct None)
      as [[d0 e0] r1] eqn:E.
    rewrite (DecryptData_range_cons _ _ _ _ _ _ _ E) in H.
    destruct e0 as [e0|]; cbv zeta in H.
    + eapply IH; eassumption.
    + discriminate H.
Qed.

(** [DecryptData] on input that decodes: the keys before the first one
    that succeeds are tried in order, and its result is the result. *)
Lemma DecryptData_first :
  forall (s : State) inData ct pre key post m,
    DecodeString (string_of_list_byte inData) = (ct, None) ->
    PrivateKeys (client s) = (pre ++ key :: post)%list ->
    (forall k r, In k pre ->
       snd (fst (DecryptOAEP (Hash (client s)) r k ct None)) <> None) ->
    (forall r, fst (DecryptOAEP (Hash (client s)) r key ct None) = (m, None)) ->
    exists s',
      DecryptData inData s = ((m, None), s') /\
      calls s' = (calls s ++ map CallDecryptOAEP (pre ++ [key]))%list.
Proof.
  intros s inData ct pre key post m Hdec Hkeys Hfail Hok.
  destruct (DecryptData_range_first pre key post ct m s Hfail Hok) as [r' Hr'].
  eexists; split.
  - unfold DecryptData. rewrite Hdec. unfold bind, get. rewrite Hkeys. exact Hr'.
  - reflexivity.
Qed.

End Loop.

Section Contract.
Context {enc : Encoding} {lib : Lib}.

(** *** What the proofs assume of encoding/base64 *)

Hypothesis DecodeString_EncodeToString :
  forall b : bytes, DecodeString (EncodeToString b) = (b, None).

Hypothesis EncodeToString_nil : EncodeToString [] = EmptyString.

Hypothesis DecodeString_error :
  forall s b e, DecodeString s = (b, Some e) -> exists off, e = CorruptInputError off.

(** *** What the proofs assume of crypto/rsa

    The randomness source never fails to deliver.  A message within the
    OAEP bound is encrypted; a longer one is refused.  The private key of
    the pair decrypts what the public key encrypted, and a decryption that
    reports success, under whatever key, yields the message that was
    encrypted (the padding check rejects everything else). *)

Hypothesis EncryptOAEP_fits :
  forall h r pub priv msg,
    KeyPair pub priv ->
    len msg <= Size pub - 2 * hash_Size h - 2 ->
    exists ct r', EncryptOAEP h r pub msg None = ((Some ct, None), r').

Hypothesis EncryptOAEP_too_long :
  forall h r pub msg,
    Size pub - 2 * hash_Size h - 2 < len msg ->
    exists e r', EncryptOAEP h r pub msg None = ((None, Some e), r').

Hypothesis DecryptOAEP_EncryptOAEP :
  forall h r r' pub priv msg ct,
    KeyPair pub priv ->
    EncryptOAEP h r pub msg None = ((Some ct, None), r') ->
    forall r2, exists r3, DecryptOAEP h r2 priv ct None = ((Some msg, None), r3).

Hypothesis DecryptOAEP_genuine :
  forall h r r' pub msg ct key r2 d r3,
    EncryptOAEP h r pub msg None = ((Some ct, None), r') ->
    DecryptOAEP h r2 key ct None = ((d, None), r3) ->
    d = Some msg.

Lemma EncryptData_run :
  forall (s : State) (inData : bytes) (pub : PublicKey) d e r',
    EncryptOAEP (Hash (client s)) (Reader (client s)) pub inData None = ((d, e), r') ->
    EncryptData inData pub s =
      ((Some (list_byte_of_string (EncodeToString (content d))), e),
       {| client := with_Reader (client s) r';
          calls := (calls s ++ [CallEncryptOAEP pub])%list |}).
Proof.
  intros s inData pub d e r' H.
  unfold EncryptData, bind, rsa_EncryptOAEP. rewrite H. reflexivity.
Qed.

(** What [EncryptData] wrote decodes to the ciphertext it encoded. *)
Lemma DecryptData_decodes :
  forall (ct : bytes) (s : State),
    DecryptData (list_byte_of_string (EncodeToString ct)) s =
      DecryptData_range (PrivateKeys (client s)) ct s.
Proof.
  intros ct s. unfold DecryptData.
  rewrite string_of_list_byte_of_string, DecodeString_EncodeToString.
  reflexivity.
Qed.

(** With the private key of the pair somewhere in the keyring, the loop
    ends on the encrypted message. *)
Lemma DecryptData_range_recovers :
  forall h r r' pub priv msg ct,
    KeyPair pub priv ->
    EncryptOAEP h r pub msg None = ((Some ct, None), r') ->
    forall keys (s : State),
      Hash (client s) = h ->
      In priv keys ->
      exists s', DecryptData_range keys ct s = ((Some msg, None), s').
Proof.
  intros h r r' pub priv msg ct Hpair Henc.
  induction keys as [|key keys IH]; intros s Hh Hin; [contradiction|].
  destruct (DecryptOAEP (Hash (client s)) (Reader (client s)) key ct None)
    as [[d e] r1] eqn:E.
  rewrite (DecryptData_range_cons _ _ _ _ _ _ _ E).
  destruct e as [e|]; cbv zeta.
  - destruct Hin as [-> | Hin].
    + destruct (DecryptOAEP_EncryptOAEP _ _ _ _ _ _ _ Hpair Henc (Reader (client s)))
        as [r3 Hdec].
      rewrite Hh in E. rewrite Hdec in E. discriminate E.
    + apply IH; [exact Hh | exact Hin].
  - rewrite Hh in E.
    rewrite (DecryptOAEP_genuine _ _ _ _ _ _ _ _ _ _ Henc E).
    eexists; reflexivity.
Qed.

(** C1. Round trip: a plaintext within the OAEP bound, encrypted by
    [EncryptData] under the public key of a pair, is returned exactly by
    [DecryptData] of any client with the same hash whose keyring contains
    the private key of the pair. *)
Theorem DecryptData_EncryptData :
  forall (s : State) (p : bytes) (pub : PublicKey) (priv : PrivateKey),
    KeyPair pub priv ->
    len p <= Size pub - 2 * hash_Size (Hash (client s)) - 2 ->
    exists data s1,
      EncryptData p pub s = ((Some data, None), s1) /\
      forall s2 : State,
        Hash (client s2) = Hash (client s) ->
        In priv (PrivateKeys (client s2)) ->
        exists s3, DecryptData data s2 = ((Some p, None), s3).
Proof.
  intros s p pub priv Hpair Hlen.
  destruct (EncryptOAEP_fits (Hash (client s)) (Reader (client s)) pub priv p Hpair Hlen)
    as (ct & r' & Henc).
  eexists; eexists; split.
  - apply (EncryptData_run _ _ _ _ _ _ Henc).
  - intros s2 Hh Hin. simpl content. rewrite DecryptData_decodes.
    eapply DecryptData_range_recovers; eassumption.
Qed.

(** C4. [DecryptData] tries the keys in keyring order and returns what the
    first key that decrypts returns, trying no key after it; so with
    keyring [[A; B]] and data encrypted under B's public key, A is tried
    and fails, then B is tried and its plaintext is returned. *)
Theorem DecryptData_first_key_that_decrypts :
  (forall (s : State) inData ct pre key post m,
     DecodeString (string_of_list_byte inData) = (ct, None) ->
     PrivateKeys (client s) = (pre ++ key :: post)%list ->
     (forall k r, In k pre ->
        snd (fst (DecryptOAEP (Hash (client s)) r k ct None)) <> None) ->
     (forall r, fst (DecryptOAEP (Hash (client s)) r key ct None) = (m, None)) ->
     exists s',
       DecryptData inData s = ((m, None), s') /\
       calls s' = (calls s ++ map CallDecryptOAEP (pre ++ [key]))%list)
  /\
  (forall (s : State) p pubB B,
     KeyPair pubB B ->
     len p <= Size pubB - 2 * hash_Size (Hash (client s)) - 2 ->
     exists data s1,
       EncryptData p pubB s = ((Some data, None), s1) /\
       forall (s2 : State) A,
         PrivateKeys (client s2) = [A; B] ->
         Hash (client s2) = Hash (client s) ->
         (forall ct r, DecodeString (string_of_list_byte data) = (ct, None) ->
            snd (fst (DecryptOAEP (Hash (client s2)) r A ct None)) <> None) ->
         exists s3,
           DecryptData data s2 = ((Some p, None), s3) /\
           calls s3 = (calls s2 ++ [CallDecryptOAEP A; CallDecryptOAEP B])%list).
Proof.
  split; [exact DecryptData_first|].
  intros s p pubB B Hpair Hlen.
  destruct (EncryptOAEP_fits (Hash (client s)) (Reader (client s)) pubB B p Hpair Hlen)
    as (ct & r' & Henc).
  eexists; eexists; split; [apply (EncryptData_run _ _ _ _ _ _ Henc)|].
  intros s2 A Hkeys Hh HA. simpl content in *.
  assert (Hdec : DecodeString (string_of_list_byte
                   (list_byte_of_string (EncodeToString ct))) = (ct, None)).
  { rewrite string_of_list_byte_of_string. apply DecodeString_EncodeToString. }
  apply (DecryptData_first s2 _ ct [A] B [] (Some p) Hdec Hkeys).
  - intros k r [<- | []]. apply (HA _ r Hdec).
  - intros r. rewrite Hh.
    destruct (DecryptOAEP_EncryptOAEP _ _ _ _ _ _ _ Hpair Henc r) as [r3 H3].
    rewrite H3. reflexivity.
Qed.

(** C5. The two ways [DecryptData] fails.  When the base64 decoder
    rejects the input its error is returned with nil data and no key has
    been tried (the state is untouched); when the input decodes and every
    key fails, every key has been tried and the no-matching-key error is
    returned with nil data.  The two errors differ, there is no third
    way to fail, and no error is ever returned together with data. *)
Theorem DecryptData_failure_modes :
  forall (s : State) (inData : bytes),
    (forall partial e,
       DecodeString (string_of_list_byte inData) = (partial, Some e) ->
       DecryptData inData s = ((None, Some e), s) /\ e <> errNoKey)
    /\
    (forall ct,
       DecodeString (string_of_list_byte inData) = (ct, None) ->
       (forall k r, In k (PrivateKeys (client s)) ->
          snd (fst (DecryptOAEP (Hash (client s)) r k ct None)) <> None) ->
       exists s',
         DecryptData inData s = ((None, Some errNoKey), s') /\
         calls s' = (calls s ++ map CallDecryptOAEP (PrivateKeys (client s)))%list)
    /\
    (forall d e s',
       DecryptData inData s = ((d, Some e), s') ->
       d = None /\
       (e = errNoKey \/
        exists partial, DecodeString (string_of_list_byte inData) = (partial, Some e))).
Proof.
  intros s inData. split; [|split].
  - intros partial e Hdec. split.
    + unfold DecryptData. rewrite Hdec. reflexivity.
    + destruct (DecodeString_error _ _ _ Hdec) as [off ->]. discriminate.
  - intros ct Hdec Hfail.
    destruct (DecryptData_range_all_fail (PrivateKeys (client s)) ct s Hfail) as [r' Hr'].
    eexists; split.
    + unfold DecryptData. rewrite Hdec. unfold bind, get. exact Hr'.
    + reflexivity.
  - intros d e s'. unfold DecryptData.
    destruct (DecodeString (string_of_list_byte inData)) as [ct [e0|]].
    + unfold ret. intros H. injection H as <- <- _.
      split; [reflexivity | right; now exists ct].
    + unfold bind, get. intros H.
      apply DecryptData_range_error_nil in H. destruct H as [-> ->].
      split; [reflexivity | now left].
Qed.

(** C6. A plaintext longer than the OAEP bound (key size minus twice the
    hash size minus 2) makes [EncryptData] return a non-nil error, and the
    data beside it is empty: it encodes no part of the plaintext. *)
Theorem EncryptData_too_long :
  forall (s : State) (p : bytes) (pub : PublicKey),
    Size pub - 2 * hash_Size (Hash (client s)) - 2 < len p ->
    exists e s', EncryptData p pub s = ((Some [], Some e), s').
Proof.
  intros s p pub Hlen.
  destruct (EncryptOAEP_too_long (Hash (client s)) (Reader (client s)) pub p Hlen)
    as (e & r' & Henc).
  exists e. eexists.
  rewrite (EncryptData_run _ _ _ _ _ _ Henc). simpl content.
  rewrite EncodeToString_nil. reflexivity.
Qed.

End Contract.

(** *** The statements on concrete data *)

Section CryptodataExamples.
Import examples.
#[local] Existing Instance base64url.URLEncoding.
#[local] Existing Instance envelope.lib.

Lemma secret_fits :
  len secret <= Size pubB - 2 * hash_Size (Hash (client (keyring []))) - 2.
Proof. vm_compute. discriminate. Defined.

Lemma DecryptData_EncryptData_witness :
  KeyPair pubB keyB /\
  len secret <= Size pubB - 2 * hash_Size (Hash (client (keyring []))) - 2 /\
  exists data s1,
    EncryptData secret pubB (keyring []) = ((Some data, None), s1) /\
    forall s2 : State,
      Hash (client s2) = Hash (client (keyring [])) ->
      In keyB (PrivateKeys (client s2)) ->
      exists s3, DecryptData data s2 = ((Some secret, None), s3).
Proof.
  split; [reflexivity|]. split; [exact secret_fits|].
  exact (DecryptData_EncryptData
           base64url_facts.url_DecodeString_EncodeToString
           envelope_facts.envelope_EncryptOAEP_fits
           envelope_facts.envelope_DecryptOAEP_EncryptOAEP
           envelope_facts.envelope_DecryptOAEP_genuine
           (keyring []) secret pubB keyB eq_refl secret_fits).
Defined.

Lemma DecryptData_first_key_that_decrypts_witness :
  exists s',
    DecryptData sealed (keyring [keyA; keyB]) = ((Some secret, None), s') /\
    calls s' = [CallDecryptOAEP keyA; CallDecryptOAEP keyB].
Proof.
  refine (proj1 (DecryptData_first_key_that_decrypts
                   base64url_facts.url_DecodeString_EncodeToString
                   envelope_facts.envelope_EncryptOAEP_fits
                   envelope_facts.envelope_DecryptOAEP_EncryptOAEP)
            (keyring [keyA; keyB]) sealed
            ("B"%byte :: "007"%byte :: secret) [keyA] keyB [] (Some secret)
            eq_refl eq_refl _ _).
  - intros k r [<- | []]. vm_compute. discriminate.
  - intros r. reflexivity.
Defined.

Lemma DecryptData_failure_modes_witness :
  (DecryptData (list_byte_of_string "!!!!") (keyring [keyA; keyB]) =
     ((None, Some (CorruptInputError 0)), keyring [keyA; keyB]) /\
   CorruptInputError 0 <> errNoKey) /\
  exists s',
    DecryptData sealed (keyring [keyA; keyA]) = ((None, Some errNoKey), s') /\
    calls s' = [CallDecryptOAEP keyA; CallDecryptOAEP keyA].
Proof.
  split.
  - exact (proj1 (DecryptData_failure_modes
                    base64url_facts.url_DecodeString_error
                    (keyring [keyA; keyB]) (list_byte_of_string "!!!!"))
             [] (CorruptInputError 0) eq_refl).
  - refine (proj1 (proj2 (DecryptData_failure_modes
                            base64url_facts.url_DecodeString_error
                            (keyring [keyA; keyA]) sealed))
              ("B"%byte :: "007"%byte :: secret) eq_refl _).
    intros k r [<- | [<- | []]]; vm_compute; discriminate.
Defined.

Lemma EncryptData_too_long_witness :
  Size pubB - 2 * hash_Size (Hash (client (keyring []))) - 2 < len long_secret /\
  exists e s', EncryptData long_secret pubB (keyring []) = ((Some [], Some e), s').
Proof.
  assert (H : Size pubB - 2 * hash_Size (Hash (client (keyring []))) - 2 < len long_secret)
    by reflexivity.
  split; [exact H|].
  exact (EncryptData_too_long
           base64url_facts.url_EncodeToString_nil
           envelope_facts.envelope_EncryptOAEP_too_long
           (keyring []) long_secret pubB H).
Defined.

End CryptodataExamples.

End cryptodata_spec.

(** * Properties of package grpc *)

Module grpc_spec.
Import grpc.

(** ** Keepalive options *)

Lemma seconds_exact :
  forall n, is_uint32 n -> time.mul n time.Second = n * 1000000000.
Proof.
  intros n [H0 H1]. unfold time.mul, time.int64, time.Second.
  rewrite Z.mod_small by lia. lia.
Qed.

Lemma limits_not_keepalive :
  forall cfg, forallb (fun o => negb (is_keepalive o)) (limits cfg) = true.
Proof.
  intros cfg. unfold limits.
  destruct (0 <? MaxConcurrentStreams cfg), (0 <? MaxMsgSize cfg); reflexivity.
Qed.

Lemma getGrpcOptions_shape :
  forall cfg,
    getGrpcOptions cfg =
      (limits cfg ++
       if KeepaliveEnable cfg
       then [grpc_KeepaliveEnforcementPolicy (kaep cfg);
             grpc_KeepaliveParams (kasp cfg)]
       else [])%list.
Proof.
  intros cfg. unfold getGrpcOptions, limits.
  destruct (0 <? MaxConcurrentStreams cfg), (0 <? MaxMsgSize cfg),
    (KeepaliveEnable cfg); reflexivity.
Qed.

(** An override as the code applies it is [overridden]: the product with
    [time.Second] does not wrap for a [uint32] count of seconds. *)
Lemma override_seconds :
  forall default v,
    is_uint32 v ->
    (if 0 <? v then time.mul v time.Second else default) = overridden default v.
Proof.
  intros default v Hv. unfold overridden. pose proof Hv as [Hv0 Hv1].
  destruct (Z.ltb_spec 0 v), (Z.eqb_spec v 0);
    [lia | now apply seconds_exact | reflexivity | lia].
Qed.

Lemma overridden_pos :
  forall default v, 0 < default -> is_uint32 v -> 0 < overridden default v.
Proof.
  intros default v Hd [Hv _]. unfold overridden. destruct (Z.eqb_spec v 0); lia.
Qed.

(** Goals that read one field of [kaep] or [kasp]: one case per [if]. *)
Ltac by_overrides cfg :=
  repeat match goal with x := _ |- _ => subst x end;
  unfold kaep, kasp;
  destruct (0 <? KeepaliveClientPingMinTime cfg), (KeepalivePermitWithoutStream cfg),
    (0 <? KeepalivePingTimeout cfg), (0 <? KeepaliveIdlePingInterval cfg),
    (0 <? KeepaliveMaxConnectionAge cfg), (0 <? KeepaliveMaxConnectionIdle cfg);
  reflexivity.

(** C8. With keepalive enabled the two keepalive options are emitted, and
    each of their fields is determined by its own override alone: zero
    keeps the built-in default (20s, 20s and 7200s for the minimum client
    ping interval, the ping timeout and the idle ping interval; unset for
    the two connection limits), a positive value replaces it, in seconds
    and without overflow.  The three intervals are positive whatever the
    overrides are. *)
Theorem keepalive_overrides_independent :
  forall cfg,
    Config_ok cfg ->
    KeepaliveEnable cfg = true ->
    let kep := kaep cfg in
    let kp := kasp cfg in
    getGrpcOptions cfg =
      (limits cfg ++ [grpc_KeepaliveEnforcementPolicy kep; grpc_KeepaliveParams kp])%list /\
    keepalive.MinTime kep = overridden 20000000000 (KeepaliveClientPingMinTime cfg) /\
    keepalive.PermitWithoutStream kep = KeepalivePermitWithoutStream cfg /\
    keepalive.Timeout kp = overridden 20000000000 (KeepalivePingTimeout cfg) /\
    keepalive.Time kp = overridden 7200000000000 (KeepaliveIdlePingInterval cfg) /\
    keepalive.MaxConnectionAge kp = overridden 0 (KeepaliveMaxConnectionAge cfg) /\
    keepalive.MaxConnectionIdle kp = overridden 0 (KeepaliveMaxConnectionIdle cfg) /\
    keepalive.MaxConnectionAgeGrace kp = 0 /\
    0 < keepalive.MinTime kep /\ 0 < keepalive.Timeout kp /\ 0 < keepalive.Time kp.
Proof.
  intros cfg Hok Hen kep kp.
  destruct Hok as [_ _ _ Hmin Hidle Hto Hage Hmidle].
  assert (Emin : keepalive.MinTime kep =
                 overridden 20000000000 (KeepaliveClientPingMinTime cfg)).
  { rewrite <- (override_seconds _ _ Hmin). by_overrides cfg. }
  assert (Eto : keepalive.Timeout kp = overridden 20000000000 (KeepalivePingTimeout cfg)).
  { rewrite <- (override_seconds _ _ Hto). by_overrides cfg. }
  assert (Etime : keepalive.Time kp =
                  overridden 7200000000000 (KeepaliveIdlePingInterval cfg)).
  { rewrite <- (override_seconds _ _ Hidle). by_overrides cfg. }
  split; [rewrite getGrpcOptions_shape, Hen; reflexivity|].
  split; [exact Emin|].
  split; [by_overrides cfg|].
  split; [exact Eto|].
  split; [exact Etime|].
  split; [rewrite <- (override_seconds _ _ Hage); by_overrides cfg|].
  split; [rewrite <- (override_seconds _ _ Hmidle); by_overrides cfg|].
  split; [by_overrides cfg|].
  rewrite Emin, Eto, Etime.
  repeat split; apply overridden_pos; (lia || assumption).
Qed.

(** C10. With keepalive disabled no keepalive option is emitted, and the
    option list is the same whatever the six keepalive fields hold. *)
Theorem keepalive_disabled_emits_nothing :
  forall cfg,
    KeepaliveEnable cfg = false ->
    forallb (fun o => negb (is_keepalive o)) (getGrpcOptions cfg) = true /\
    forall cfg',
      KeepaliveEnable cfg' = false ->
      MaxConcurrentStreams cfg' = MaxConcurrentStreams cfg ->
      MaxMsgSize cfg' = MaxMsgSize cfg ->
      getGrpcOptions cfg' = getGrpcOptions cfg.
Proof.
  intros cfg Hoff. split.
  - rewrite getGrpcOptions_shape, Hoff, app_nil_r. apply limits_not_keepalive.
  - intros cfg' Hoff' Hs Hm.
    rewrite !getGrpcOptions_shape, Hoff, Hoff'. unfold limits. now rewrite Hs, Hm.
Qed.


(** ** TLS configuration *)

Section TLSProperties.
Context {lib : tls.Lib}.

Lemma tls_off_dec : forall cfg, {tls_off cfg} + {~ tls_off cfg}.
Proof.
  intros cfg. unfold tls_off.
  destruct (InsecureTransport cfg); [left; now left|].
  destruct (string_dec (Certfile cfg) ""), (string_dec (Keyfile cfg) "");
    try (left; right; now split); right; intros [H | [H1 H2]];
    try discriminate; contradiction.
Qed.

(** [getTLS] once it is past its first two tests. *)
Lemma getTLS_when_on :
  forall cfg,
    ~ tls_off cfg ->
    getTLS cfg =
      let '(cert, err) := tls.LoadX509KeyPair (Certfile cfg) (Keyfile cfg) in
      match err with
      | Some e => (None, Some e)
      | None =>
          match CAfiles cfg with
          | [] =>
              (Some {| tls.MinVersion := tls.VersionTLS12;
                       tls.Certificates := [cert];
                       tls.ClientCAs := None;
                       tls.ClientAuth := tls.NoClientCert |}, None)
          | _ :: _ =>
              match getTLS_range (CAfiles cfg) tls.NewCertPool with
              | inr e => (None, Some e)
              | inl caCertPool =>
                  (Some {| tls.MinVersion := tls.VersionTLS12;
                           tls.Certificates := [cert];
                           tls.ClientCAs := Some caCertPool;
                           tls.ClientAuth := tls.RequireAndVerifyClientCert |}, None)
              end
          end
      end.
Proof.
  intros cfg Hon. unfold getTLS, tls_off in *.
  destruct (InsecureTransport cfg); [exfalso; apply Hon; now left|].
  destruct (String.eqb_spec (Certfile cfg) "") as [Hc|Hc];
    destruct (String.eqb_spec (Keyfile cfg) "") as [Hk|Hk]; cbn [andb];
    try (exfalso; apply Hon; right; now split);
    destruct (tls.LoadX509KeyPair (Certfile cfg) (Keyfile cfg)) as [cert [e|]];
    try reflexivity; destruct (CAfiles cfg); reflexivity.
Qed.

Lemma getTLS_when_off :
  forall cfg, tls_off cfg -> getTLS cfg = (None, None).
Proof.
  intros cfg [H | [Hc Hk]]; unfold getTLS.
  - now rewrite H.
  - rewrite Hc, Hk. destruct (InsecureTransport cfg); reflexivity.
Qed.

(** C3. A certificate file without a key file is an error: the key file
    is read from the empty path, which the file system refuses. *)
Theorem getTLS_cert_without_key :
  forall cfg,
    snd (tls.ReadFile "") <> None ->
    InsecureTransport cfg = false ->
    Certfile cfg <> "" ->
    Keyfile cfg = "" ->
    exists e, getTLS cfg = (None, Some e).
Proof.
  intros cfg Hempty Hsec Hcert Hkey.
  assert (Hon : ~ tls_off cfg).
  { intros [H | [H _]]; [rewrite Hsec in H; discriminate | contradiction]. }
  rewrite (getTLS_when_on cfg Hon), Hkey. unfold tls.LoadX509KeyPair.
  destruct (tls.ReadFile (Certfile cfg)) as [certPEM [e|]]; [now exists e|].
  destruct (tls.ReadFile "") as [keyPEM [e|]]; [now exists e|].
  now contradiction Hempty.
Qed.

Lemma getTLS_range_cons :
  forall c files pool,
    getTLS_range (c :: files) pool =
      match load_CA pool c with
      | inl pool' => getTLS_range files pool'
      | inr e => inr e
      end.
Proof.
  intros c files pool. cbn [getTLS_range]. unfold load_CA.
  destruct (tls.ReadFile c) as [cert [e|]]; [reflexivity|].
  destruct (tls.AppendCertsFromPEM pool (content cert)) as [pool' [|]]; reflexivity.
Qed.

Lemma getTLS_range_inl :
  forall files pool pool',
    getTLS_range files pool = inl pool' <-> pool_from pool files pool'.
Proof.
  induction files as [|c files IH]; intros pool pool'.
  - cbn. split.
    + intros H. injection H as <-. constructor.
    + intros H. inversion H. reflexivity.
  - rewrite getTLS_range_cons. split.
    + destruct (load_CA pool c) as [p | e] eqn:E; [|discriminate].
      intros H. econstructor; [exact E | now apply IH].
    + intros H. inversion H as [|? ? p ? ? Hl Hp]; subst.
      rewrite Hl. now apply IH.
Qed.

(** The error of a CA file that does not load is its read error or the
    message made from its name. *)
Lemma load_CA_error :
  forall pool c e,
    load_CA pool c = inr e -> snd (tls.ReadFile c) = Some e \/ e = errAddCA c.
Proof.
  intros pool c e E. unfold load_CA in E.
  destruct (tls.ReadFile c) as [cert [e0|]].
  - left. now injection E as ->.
  - right. destruct (tls.AppendCertsFromPEM pool (content cert)) as [p [|]];
      [discriminate | now injection E as <-].
Qed.

Lemma getTLS_range_app :
  forall pre rest pool pool',
    pool_from pool pre pool' ->
    getTLS_range (pre ++ rest) pool = getTLS_range rest pool'.
Proof.
  induction pre as [|c pre IH]; intros rest pool pool' H.
  - inversion H. reflexivity.
  - inversion H as [|? ? p ? ? Hl Hp]; subst.
    cbn [app]. rewrite getTLS_range_cons, Hl. now apply IH.
Qed.

(** A failing loop stopped at the first file that does not load, and its
    error is that file's: the read error, or the message naming it. *)
Lemma getTLS_range_inr :
  forall files pool e,
    getTLS_range files pool = inr e ->
    exists pre c post pool',
      files = (pre ++ c :: post)%list /\
      pool_from pool pre pool' /\
      load_CA pool' c = inr e /\
      (snd (tls.ReadFile c) = Some e \/ e = errAddCA c).
Proof.
  induction files as [|c files IH]; intros pool e H; [discriminate|].
  rewrite getTLS_range_cons in H.
  destruct (load_CA pool c) as [p | e'] eqn:E.
  - destruct (IH _ _ H) as (pre & c' & post & pool' & -> & Hp & Hl & Hn).
    exists (c :: pre), c', post, pool'. repeat split; try assumption.
    econstructor; eassumption.
  - injection H as ->. exists [], c, files, pool. repeat split.
    + constructor.
    + exact E.
    + exact (load_CA_error _ _ _ E).
Qed.

Lemma load_CA_unusable :
  forall pool c, unusable_CA c -> exists e, load_CA pool c = inr e.
Proof.
  intros pool c [Hr | Ha]; unfold load_CA.
  - destruct (tls.ReadFile c) as [cert [e|]]; [now exists e | now contradiction Hr].
  - specialize (Ha pool).
    destruct (tls.ReadFile c) as [cert [e|]]; [now exists e|]. cbn in Ha.
    destruct (tls.AppendCertsFromPEM pool (content cert)) as [p ok]. cbn in Ha.
    subst ok. now exists (errAddCA c).
Qed.

Lemma getTLS_range_unusable :
  forall files pool c,
    In c files -> unusable_CA c -> exists e, getTLS_range files pool = inr e.
Proof.
  induction files as [|c0 files IH]; intros pool c Hin Hbad; [contradiction|].
  rewrite getTLS_range_cons.
  destruct (load_CA pool c0) as [p | e] eqn:E; [|now exists e].
  destruct Hin as [-> | Hin].
  - destruct (load_CA_unusable pool c Hbad) as [e He]. rewrite He in E. discriminate.
  - eapply IH; eassumption.
Qed.

(** No file that loaded is unusable. *)
Lemma pool_from_usable :
  forall pool files pool' c,
    pool_from pool files pool' -> In c files -> unusable_CA c -> False.
Proof.
  intros pool files pool' c Hp. induction Hp as [pool | pool c0 p files p' Hl _ IH];
    intros Hin Hbad; [contradiction|].
  destruct Hin as [-> | Hin]; [|now apply IH].
  destruct (load_CA_unusable pool c Hbad) as [e He]. rewrite He in Hl. discriminate Hl.
Qed.

(** C2, as the code has it.  [getTLS] returns a nil configuration with a
    nil error exactly when [InsecureTransport] is set or both [Certfile]
    and [Keyfile] are empty.  In every other case the certificate and key
    files are loaded: an error of [tls.LoadX509KeyPair] on the two files
    is what [getTLS] returns, with no configuration; once the pair has
    loaded, [getTLS] returns a configuration with no error, whose only
    certificate is that pair and whose lowest version is TLS 1.2, or it
    returns the error of a CA file with no configuration, which takes CA
    files to be configured.  So the result is never nil and nil. *)
Theorem getTLS_disabled_iff :
  forall cfg,
    (getTLS cfg = (None, None) <-> tls_off cfg) /\
    (~ tls_off cfg ->
     ((exists tc, getTLS cfg = (Some tc, None)) \/
      (exists e, getTLS cfg = (None, Some e))) /\
     (forall e,
        snd (tls.LoadX509KeyPair (Certfile cfg) (Keyfile cfg)) = Some e ->
        getTLS cfg = (None, Some e)) /\
     (forall cert,
        tls.LoadX509KeyPair (Certfile cfg) (Keyfile cfg) = (cert, None) ->
        (exists tc,
           getTLS cfg = (Some tc, None) /\
           tls.Certificates tc = [cert] /\
           tls.MinVersion tc = tls.VersionTLS12) \/
        (CAfiles cfg <> [] /\
         exists e c,
           getTLS cfg = (None, Some e) /\
           In c (CAfiles cfg) /\
           (snd (tls.ReadFile c) = Some e \/ e = errAddCA c)))).
Proof.
  intros cfg.
  assert (Hloaded : ~ tls_off cfg ->
            forall cert,
              tls.LoadX509KeyPair (Certfile cfg) (Keyfile cfg) = (cert, None) ->
              (exists tc,
                 getTLS cfg = (Some tc, None) /\
                 tls.Certificates tc = [cert] /\
                 tls.MinVersion tc = tls.VersionTLS12) \/
              (CAfiles cfg <> [] /\
               exists e c,
                 getTLS cfg = (None, Some e) /\
                 In c (CAfiles cfg) /\
                 (snd (tls.ReadFile c) = Some e \/ e = errAddCA c))).
  { intros Hon cert Hload. rewrite (getTLS_when_on cfg Hon), Hload.
    destruct (CAfiles cfg) as [|c files] eqn:Efiles.
    - left. eexists. split; [reflexivity|]. now split.
    - destruct (getTLS_range (c :: files) tls.NewCertPool) as [pool | e] eqn:E.
      + left. eexists. split; [reflexivity|]. now split.
      + right. split; [discriminate|].
        destruct (getTLS_range_inr _ _ _ E) as (pre & c' & post & pool' & Hf & _ & _ & Hn).
        exists e, c'. split; [reflexivity|]. split; [|exact Hn].
        rewrite Hf. apply in_or_app. right. now left. }
  assert (Hfailed : ~ tls_off cfg ->
            forall e,
              snd (tls.LoadX509KeyPair (Certfile cfg) (Keyfile cfg)) = Some e ->
              getTLS cfg = (None, Some e)).
  { intros Hon e Hload. rewrite (getTLS_when_on cfg Hon).
    destruct (tls.LoadX509KeyPair (Certfile cfg) (Keyfile cfg)) as [cert [e'|]];
      cbn [snd] in Hload; [|discriminate Hload].
    now injection Hload as ->. }
  assert (Hon : ~ tls_off cfg ->
                (exists tc, getTLS cfg = (Some tc, None)) \/
                (exists e, getTLS cfg = (None, Some e))).
  { intros H.
    destruct (tls.LoadX509KeyPair (Certfile cfg) (Keyfile cfg)) as [cert [e|]] eqn:Hload.
    - right. exists e. apply (Hfailed H). first [now rewrite Hload | reflexivity].
    - destruct (Hloaded H cert ltac:(first [exact Hload | reflexivity]))
        as [(tc & E & _) | (_ & e & c & E & _)].
      + left. now exists tc.
      + right. now exists e. }
  split; [split|].
  - intros H. destruct (tls_off_dec cfg) as [Hoff | Hn]; [exact Hoff|].
    destruct (Hon Hn) as [[tc E] | [e E]]; rewrite E in H; discriminate H.
  - apply getTLS_when_off.
  - intros H. split; [exact (Hon H)|]. split; [exact (Hfailed H) | exact (Hloaded H)].
Qed.

(** C7, as the code has it.  When [getTLS] succeeds for a configuration
    with CA files, the result requires and verifies client certificates
    against the pool built from those files, all of them, in their order;
    and it does succeed, with that pool and the loaded pair, whenever TLS
    is not switched off, the certificate and key load and every CA file
    loads.  Once the certificate and key have loaded, a CA file that
    cannot be read or holds no certificate makes [getTLS] fail.  The error
    is the one of the first file of the list that does not load, which is
    the file itself or one before it: its read error, or the message
    carrying its name.  It is the error of the file itself when every file
    before it loads. *)
Theorem getTLS_client_CAs :
  forall cfg,
    (forall tc,
       getTLS cfg = (Some tc, None) ->
       CAfiles cfg <> [] ->
       tls.ClientAuth tc = tls.RequireAndVerifyClientCert /\
       exists pool,
         tls.ClientCAs tc = Some pool /\
         pool_from tls.NewCertPool (CAfiles cfg) pool)
    /\
    (forall cert pool,
       ~ tls_off cfg ->
       tls.LoadX509KeyPair (Certfile cfg) (Keyfile cfg) = (cert, None) ->
       CAfiles cfg <> [] ->
       pool_from tls.NewCertPool (CAfiles cfg) pool ->
       exists tc,
         getTLS cfg = (Some tc, None) /\
         tls.ClientAuth tc = tls.RequireAndVerifyClientCert /\
         tls.ClientCAs tc = Some pool /\
         tls.Certificates tc = [cert])
    /\
    (forall cert c,
       ~ tls_off cfg ->
       tls.LoadX509KeyPair (Certfile cfg) (Keyfile cfg) = (cert, None) ->
       In c (CAfiles cfg) ->
       unusable_CA c ->
       exists e pre c' post pool,
         getTLS cfg = (None, Some e) /\
         CAfiles cfg = (pre ++ c' :: post)%list /\
         pool_from tls.NewCertPool pre pool /\
         In c (c' :: post) /\
         (snd (tls.ReadFile c') = Some e \/ e = errAddCA c'))
    /\
    (forall cert pre c post pool e,
       ~ tls_off cfg ->
       tls.LoadX509KeyPair (Certfile cfg) (Keyfile cfg) = (cert, None) ->
       CAfiles cfg = (pre ++ c :: post)%list ->
       pool_from tls.NewCertPool pre pool ->
       load_CA pool c = inr e ->
       getTLS cfg = (None, Some e) /\
       (snd (tls.ReadFile c) = Some e \/ e = errAddCA c)).
Proof.
  intros cfg. split; [|split; [|split]].
  - intros tc H Hca.
    destruct (tls_off_dec cfg) as [Hoff | Hon].
    { rewrite (getTLS_when_off cfg Hoff) in H. discriminate H. }
    rewrite (getTLS_when_on cfg Hon) in H.
    destruct (tls.LoadX509KeyPair (Certfile cfg) (Keyfile cfg)) as [cert [e|]];
      [discriminate H|].
    destruct (CAfiles cfg) as [|c files] eqn:Efiles; [contradiction|].
    destruct (getTLS_range (c :: files) tls.NewCertPool) as [pool | e] eqn:E;
      [|discriminate H].
    injection H as <-. split; [reflexivity|].
    exists pool. split; [reflexivity|]. now apply getTLS_range_inl.
  - intros cert pool Hon Hload Hca Hpool.
    apply getTLS_range_inl in Hpool.
    rewrite (getTLS_when_on cfg Hon), Hload, Hpool.
    destruct (CAfiles cfg); [contradiction|].
    eexists. split; [reflexivity|]. repeat split.
  - intros cert c Hon Hload Hin Hbad.
    destruct (getTLS_range_unusable (CAfiles cfg) tls.NewCertPool c Hin Hbad) as [e He].
    destruct (getTLS_range_inr _ _ _ He) as (pre & c' & post & pool & Hf & Hpre & _ & Hn).
    exists e, pre, c', post, pool.
    split; [|split; [exact Hf | split; [exact Hpre | split; [|exact Hn]]]].
    + rewrite (getTLS_when_on cfg Hon), Hload, He.
      destruct (CAfiles cfg); [contradiction | reflexivity].
    + rewrite Hf in Hin. apply in_app_or in Hin. destruct Hin as [Hin | Hin];
        [|exact Hin].
      exfalso. exact (pool_from_usable _ _ _ _ Hpre Hin Hbad).
  - intros cert pre c post pool e Hon Hload Hfiles Hpre Hc.
    split; [|exact (load_CA_error _ _ _ Hc)].
    rewrite (getTLS_when_on cfg Hon), Hload, Hfiles.
    rewrite (getTLS_range_app pre (c :: post) _ _ Hpre), getTLS_range_cons, Hc.
    destruct pre; reflexivity.
Qed.

End TLSProperties.

(** ** The port of the endpoint *)

Import strings strconv.

Example LastIndex_examples :
  LastIndex "go gopher" "go" = 3 /\ LastIndex "go gopher" "rodent" = -1 /\
  LastIndex "[::1]:8080" ":" = 5 /\ LastIndex "unix.sock" ":" = -1.
Proof. vm_compute. repeat split; reflexivity. Qed.

Example Atoi_examples :
  Atoi "9111" = (9111, None) /\
  Atoi "-42" = (-42, None) /\
  Atoi "+7" = (7, None) /\
  Atoi "" = (0, Some (NumError "Atoi" "" ErrSyntax)) /\
  Atoi "80a" = (0, Some (NumError "Atoi" "80a" ErrSyntax)) /\
  Atoi "9223372036854775807" = (9223372036854775807, None) /\
  Atoi "9223372036854775808" =
    (9223372036854775807, Some (NumError "Atoi" "9223372036854775808" ErrRange)).
Proof. vm_compute. repeat split; reflexivity. Qed.

Lemma prefix_colon :
  forall c s, String.prefix ":" (String c s) = true <-> c = colon.
Proof.
  intros c s.
  change (String.prefix ":" (String c s))
    with (if ascii_dec ":"%char c then String.prefix "" s else false).
  destruct (ascii_dec ":" c) as [E | E].
  - split; [intros _; now symmetry | intros _; destruct s; reflexivity].
  - split; [discriminate | intros H; subst c; now contradiction E].
Qed.

Lemma LastIndex_at_no_colon :
  forall s i, no_colon s -> LastIndex_at i s ":" = -1.
Proof.
  induction s as [|c s IH]; intros i H; cbn [LastIndex_at].
  - reflexivity.
  - destruct H as [Hc Hs]. rewrite (IH _ Hs). cbn [Z.leb Z.compare].
    destruct (String.prefix ":" (String c s)) eqn:E; [|reflexivity].
    apply prefix_colon in E. contradiction.
Qed.

(** The last [:] is found where the text after it has none. *)
Lemma LastIndex_at_last :
  forall pre suf i,
    0 <= i ->
    no_colon suf ->
    LastIndex_at i (pre ++ String colon suf) ":" = i + Z.of_nat (String.length pre).
Proof.
  induction pre as [|c pre IH]; intros suf i Hi Hsuf.
  - cbn [append String.length LastIndex_at].
    rewrite (LastIndex_at_no_colon _ _ Hsuf). cbn [Z.leb Z.compare].
    replace (String.prefix ":" (String colon suf)) with true
      by (symmetry; now apply prefix_colon).
    cbn. lia.
  - cbn [append String.length LastIndex_at].
    rewrite (IH suf (i + 1) ltac:(lia) Hsuf).
    destruct (Z.leb_spec 0 (i + 1 + Z.of_nat (String.length pre))); lia.
Qed.

Lemma string_from_after :
  forall pre c suf, string_from (S (String.length pre)) (pre ++ String c suf) = suf.
Proof.
  induction pre as [|c0 pre IH]; intros c suf; cbn [append String.length string_from].
  - now destruct suf.
  - apply IH.
Qed.

Lemma digit_digit_char : forall d, is_digit d -> digit (digit_char d) = Some d.
Proof.
  intros d [H0 H9].
  assert (E : In d [0; 1; 2; 3; 4; 5; 6; 7; 8; 9]).
  { cbn. lia. }
  cbn in E. repeat (destruct E as [<- | E]; [reflexivity|]). contradiction.
Qed.

Lemma digits_value_mono :
  forall ds acc, Forall is_digit ds -> 0 <= acc -> acc <= digits_value ds acc.
Proof.
  induction ds as [|d ds IH]; intros acc Hds Hacc; cbn; [lia|].
  inversion Hds as [|? ? [Hd0 Hd9] Hds']; subst.
  specialize (IH (acc * 10 + d) Hds' ltac:(lia)). lia.
Qed.

Lemma ParseUint_digits_value :
  forall ds acc,
    Forall is_digit ds ->
    0 <= acc ->
    digits_value ds acc <= maxUint64 ->
    ParseUint_digits (digits_string ds) acc = (digits_value ds acc, None).
Proof.
  induction ds as [|d ds IH]; intros acc Hds Hacc Hmax;
    cbn [digits_string ParseUint_digits digits_value] in *.
  - reflexivity.
  - inversion Hds as [|? ? Hd Hds']; subst.
    rewrite (digit_digit_char d Hd). destruct Hd as [Hd0 Hd9].
    pose proof (digits_value_mono ds (acc * 10 + d) Hds' ltac:(lia)) as Hm.
    unfold maxUint64 in *.
    destruct (Z.leb_spec (((2 ^ 64 - 1) / 10) + 1) acc) as [Hc | Hc].
    + exfalso. change ((2 ^ 64 - 1) / 10 + 1) with 1844674407370955162 in Hc. lia.
    + destruct (Z.ltb_spec (2 ^ 64 - 1) (acc * 10 + d)) as [Ho | Ho]; [lia|].
      apply IH; [assumption | lia | assumption].
Qed.

(** An unsigned decimal numeral below 2^63 parses to its value. *)
Lemma Atoi_digits :
  forall d ds,
    Forall is_digit (d :: ds) ->
    digits_value (d :: ds) 0 < 2 ^ 63 ->
    Atoi (digits_string (d :: ds)) = (digits_value (d :: ds) 0, None).
Proof.
  intros d ds Hds Hv.
  assert (Hd : is_digit d) by now inversion Hds.
  assert (Hsign : Ascii.eqb (digit_char d) "+" = false /\
                  Ascii.eqb (digit_char d) "-" = false).
  { destruct Hd as [H0 H9].
    assert (E : In d [0; 1; 2; 3; 4; 5; 6; 7; 8; 9]) by (cbn; lia).
    cbn in E. repeat (destruct E as [<- | E]; [now split|]). contradiction. }
  destruct Hsign as [Hplus Hminus].
  unfold Atoi. cbn [digits_string]. rewrite Hplus, Hminus. cbn [orb negb andb].
  change (String (digit_char d) (digits_string ds)) with (digits_string (d :: ds)).
  rewrite (ParseUint_digits_value (d :: ds) 0 Hds ltac:(lia))
    by (unfold maxUint64; lia).
  destruct (Z.leb_spec (2 ^ 63) (digits_value (d :: ds) 0)); [lia | reflexivity].
Qed.

Lemma digits_string_no_colon :
  forall ds, Forall is_digit ds -> no_colon (digits_string ds).
Proof.
  induction 1 as [|x l [H0 H9] _ IH]; [exact I|].
  split; [|exact IH].
  assert (Hin : In x [0; 1; 2; 3; 4; 5; 6; 7; 8; 9]) by (cbn; lia).
  cbn in Hin. repeat (destruct Hin as [<- | Hin]; [discriminate|]). contradiction.
Qed.

(** With a [:] in the endpoint, [GetPort] hands the text after the last
    one to [Atoi] and turns an error into 0. *)
Lemma GetPort_suffix :
  forall cfg pre suf,
    Endpoint cfg = pre ++ String colon suf ->
    no_colon suf ->
    GetPort cfg =
      match Atoi suf with
      | (port, None) => port
      | (_, Some _) => 0
      end.
Proof.
  intros cfg pre suf E Hsuf. unfold GetPort. rewrite E.
  destruct (String.eqb_spec (pre ++ String colon suf) "") as [H | _].
  { destruct pre; discriminate H. }
  destruct (String.eqb_spec (pre ++ String colon suf) ":") as [H | _].
  { destruct pre as [|c [|c' pre]]; try discriminate H.
    cbn in H. injection H as ->. reflexivity. }
  cbn [negb andb]. unfold LastIndex.
  rewrite (LastIndex_at_last pre suf 0 ltac:(lia) Hsuf).
  destruct (Z.leb_spec 0 (0 + Z.of_nat (String.length pre))); [|lia].
  replace (Z.to_nat (0 + Z.of_nat (String.length pre) + 1))
    with (S (String.length pre)) by lia.
  rewrite string_from_after. destruct (Atoi suf) as [port [e|]]; reflexivity.
Qed.

(** C9. [GetPort] returns what [strconv.Atoi] reads in the text after the
    last [:] of [Endpoint], and 0 when that text does not parse or there
    is no [:]; so a decimal port below 2^63 is returned as its value,
    ["0.0.0.0:9111"] gives 9111, and [":"] and the empty endpoint give 0.
    The result is an integer in every case: there is no error to return. *)
Theorem GetPort_parses_suffix :
  (forall cfg pre suf,
     Endpoint cfg = pre ++ String colon suf ->
     no_colon suf ->
     GetPort cfg =
       match Atoi suf with
       | (port, None) => port
       | (_, Some _) => 0
       end)
  /\
  (forall cfg pre d ds,
     Endpoint cfg = pre ++ String colon (digits_string (d :: ds)) ->
     Forall is_digit (d :: ds) ->
     digits_value (d :: ds) 0 < 2 ^ 63 ->
     GetPort cfg = digits_value (d :: ds) 0)
  /\
  (forall cfg, no_colon (Endpoint cfg) -> GetPort cfg = 0)
  /\
  (forall cfg, Endpoint cfg = "0.0.0.0:9111" -> GetPort cfg = 9111)
  /\
  (forall cfg, Endpoint cfg = ":" \/ Endpoint cfg = "" -> GetPort cfg = 0).
Proof.
  split; [exact GetPort_suffix|]. split; [|split; [|split]].
  - intros cfg pre d ds E Hds Hv.
    rewrite (GetPort_suffix cfg pre _ E (digits_string_no_colon _ Hds)).
    now rewrite (Atoi_digits d ds Hds Hv).
  - intros cfg Hno. unfold GetPort, LastIndex.
    rewrite (LastIndex_at_no_colon _ 0 Hno).
    destruct (negb (Endpoint cfg =? "")%string && negb (Endpoint cfg =? ":")%string);
      reflexivity.
  - intros cfg E. unfold GetPort. rewrite E. reflexivity.
  - intros cfg [E | E]; unfold GetPort; rewrite E; reflexivity.
Qed.


(** *** The statements on concrete data *)

Section GrpcExamples.
Import examples.
#[local] Existing Instance testfs.lib.

Lemma keepalive_config_ok :
  forall enable minTime idle timeout age,
    is_uint32 minTime -> is_uint32 idle -> is_uint32 timeout -> is_uint32 age ->
    Config_ok (keepalive_config enable minTime idle timeout age).
Proof.
  intros enable minTime idle timeout age H1 H2 H3 H4.
  constructor; cbn; try assumption; unfold is_int, is_uint32; lia.
Defined.

Lemma keepalive_overrides_independent_witness :
  let cfg := keepalive_config true 0 30 0 600 in
  Config_ok cfg /\
  KeepaliveEnable cfg = true /\
  keepalive.MinTime (kaep cfg) = 20000000000 /\
  keepalive.Timeout (kasp cfg) = 20000000000 /\
  keepalive.Time (kasp cfg) = 30000000000 /\
  keepalive.MaxConnectionAge (kasp cfg) = 600000000000 /\
  keepalive.MaxConnectionIdle (kasp cfg) = 0.
Proof.
  intros cfg.
  assert (Hok : Config_ok cfg).
  { apply keepalive_config_ok; unfold is_uint32; lia. }
  destruct (keepalive_overrides_independent cfg Hok eq_refl)
    as (_ & Hmin & _ & Hto & Htime & Hage & Hidle & _).
  split; [exact Hok|]. split; [reflexivity|].
  split; [exact Hmin|]. split; [exact Hto|]. split; [exact Htime|].
  split; [exact Hage | exact Hidle].
Defined.

Lemma keepalive_disabled_emits_nothing_witness :
  let cfg := keepalive_config false 5 6 7 8 in
  KeepaliveEnable cfg = false /\
  forallb (fun o => negb (is_keepalive o)) (getGrpcOptions cfg) = true /\
  getGrpcOptions (keepalive_config false 0 0 0 0) = getGrpcOptions cfg.
Proof.
  intros cfg. split; [reflexivity|].
  destruct (keepalive_disabled_emits_nothing cfg eq_refl) as [Hnone Hsame].
  split; [exact Hnone|].
  exact (Hsame (keepalive_config false 0 0 0 0) eq_refl eq_refl eq_refl).
Defined.

(** C2 as the claim has it fails: with [InsecureTransport] unset and
    neither a certificate nor a key file, [getTLS] returns nil and nil. *)
Lemma getTLS_off_without_insecure :
  InsecureTransport (config ":9111" false "" "" []) = false /\
  getTLS (config ":9111" false "" "" []) = (None, None).
Proof. split; reflexivity. Qed.

Lemma server_tls_on :
  forall endpoint key cas, ~ tls_off (config endpoint false "server.crt" key cas).
Proof. intros endpoint key cas [H | [H _]]; discriminate H. Defined.

Lemma getTLS_disabled_iff_witness :
  let cfg := config ":9111" false "server.crt" "server.key" [] in
  let lost := config ":9111" false "server.crt" "lost.key" ["ca.pem"] in
  let cert : @tls.Certificate testfs.lib :=
    (list_byte_of_string "CERT", list_byte_of_string "KEY") in
  let e := PathError "open" "lost.key" "no such file or directory" in
  (~ tls_off cfg /\
   tls.LoadX509KeyPair (Certfile cfg) (Keyfile cfg) = (cert, None) /\
   ((exists tc,
       getTLS cfg = (Some tc, None) /\
       tls.Certificates tc = [cert] /\
       tls.MinVersion tc = tls.VersionTLS12) \/
    (CAfiles cfg <> [] /\
     exists e c,
       getTLS cfg = (None, Some e) /\
       In c (CAfiles cfg) /\
       (snd (tls.ReadFile c) = Some e \/ e = errAddCA c)))) /\
  (~ tls_off lost /\
   snd (tls.LoadX509KeyPair (Certfile lost) (Keyfile lost)) = Some e /\
   getTLS lost = (None, Some e)).
Proof.
  intros cfg lost cert e. split.
  - split; [apply server_tls_on|]. split; [reflexivity|].
    exact (proj2 (proj2 (proj2 (getTLS_disabled_iff cfg) (server_tls_on _ _ _)))
             cert eq_refl).
  - split; [apply server_tls_on|]. split; [reflexivity|].
    exact (proj1 (proj2 (proj2 (getTLS_disabled_iff lost) (server_tls_on _ _ _)))
             e eq_refl).
Defined.

Lemma getTLS_cert_without_key_witness :
  let cfg := config ":9111" false "server.crt" "" [] in
  snd (tls.ReadFile "") <> None /\
  InsecureTransport cfg = false /\
  Certfile cfg <> "" /\
  Keyfile cfg = "" /\
  exists e, getTLS cfg = (None, Some e).
Proof.
  intros cfg.
  assert (Hempty : snd (tls.ReadFile "") <> None) by discriminate.
  assert (Hcert : Certfile cfg <> "") by discriminate.
  split; [exact Hempty|]. split; [reflexivity|]. split; [exact Hcert|].
  split; [reflexivity|].
  exact (getTLS_cert_without_key cfg Hempty eq_refl Hcert eq_refl).
Defined.

(** C7 as the claim has it fails: [empty.pem] holds no certificate, yet
    the error [getTLS] returns is the read error of [missing.pem], which
    stands before it in the list; [empty.pem] itself is read without an
    error, and the message that would carry its name is another one. *)
Lemma getTLS_error_of_earlier_CA :
  let cfg := config ":9111" false "server.crt" "server.key"
               ["ca.pem"; "missing.pem"; "empty.pem"] in
  let e := PathError "open" "missing.pem" "no such file or directory" in
  In "empty.pem" (CAfiles cfg) /\
  unusable_CA "empty.pem" /\
  getTLS cfg = (None, Some e) /\
  snd (tls.ReadFile "empty.pem") <> Some e /\
  e <> errAddCA "empty.pem".
Proof.
  intros cfg e. split; [right; right; now left|].
  split; [right; intros pool; reflexivity|].
  split; [reflexivity|]. split; discriminate.
Qed.

Lemma getTLS_client_CAs_witness :
  let good := config ":9111" false "server.crt" "server.key" ["ca.pem"] in
  let cfg := config ":9111" false "server.crt" "server.key"
               ["ca.pem"; "missing.pem"; "empty.pem"] in
  let cert : @tls.Certificate testfs.lib :=
    (list_byte_of_string "CERT", list_byte_of_string "KEY") in
  let pool : @tls.CertPool testfs.lib := [list_byte_of_string "CA"] in
  let e := PathError "open" "missing.pem" "no such file or directory" in
  (~ tls_off good /\
   tls.LoadX509KeyPair (Certfile good) (Keyfile good) = (cert, None) /\
   CAfiles good <> [] /\
   pool_from tls.NewCertPool (CAfiles good) pool /\
   exists tc,
     getTLS good = (Some tc, None) /\
     tls.ClientAuth tc = tls.RequireAndVerifyClientCert /\
     tls.ClientCAs tc = Some pool /\
     tls.Certificates tc = [cert]) /\
  (~ tls_off cfg /\
   CAfiles cfg = (["ca.pem"] ++ "missing.pem" :: ["empty.pem"])%list /\
   pool_from tls.NewCertPool ["ca.pem"] pool /\
   load_CA pool "missing.pem" = inr e /\
   getTLS cfg = (None, Some e) /\
   (snd (tls.ReadFile "missing.pem") = Some e \/ e = errAddCA "missing.pem")).
Proof.
  intros good cfg cert pool e.
  assert (Hpre : pool_from tls.NewCertPool ["ca.pem"] pool).
  { econstructor; [reflexivity | constructor]. }
  assert (Hca : CAfiles good <> []) by discriminate.
  split.
  - split; [apply server_tls_on|]. split; [reflexivity|]. split; [exact Hca|].
    split; [exact Hpre|].
    exact (proj1 (proj2 (getTLS_client_CAs good)) cert pool
             (server_tls_on _ _ _) eq_refl Hca Hpre).
  - split; [apply server_tls_on|]. split; [reflexivity|]. split; [exact Hpre|].
    split; [reflexivity|].
    exact (proj2 (proj2 (proj2 (getTLS_client_CAs cfg))) cert ["ca.pem"] "missing.pem"
             ["empty.pem"] pool e (server_tls_on _ _ _) eq_refl eq_refl Hpre eq_refl).
Defined.

Lemma GetPort_parses_suffix_witness :
  let cfg := config "localhost:8080" true "" "" [] in
  Endpoint cfg = "localhost" ++ String colon (digits_string [8; 0; 8; 0]) /\
  Forall is_digit [8; 0; 8; 0] /\
  digits_value [8; 0; 8; 0] 0 < 2 ^ 63 /\
  GetPort cfg = 8080.
Proof.
  intros cfg.
  assert (Hds : Forall is_digit [8; 0; 8; 0]).
  { repeat constructor; discriminate. }
  assert (Hv : digits_value [8; 0; 8; 0] 0 < 2 ^ 63) by reflexivity.
  split; [reflexivity|]. split; [exact Hds|]. split; [exact Hv|].
  exact (proj1 (proj2 GetPort_parses_suffix) cfg "localhost" 8 [0; 8; 0]
           eq_refl Hds Hv).
Defined.

End GrpcExamples.

End grpc_spec.

(** * More properties of package cryptodata *)

Module cryptodata_more.
Import base64 rsa cryptodata.
Import cryptodata_spec.

Section Runs.
Context {enc : Encoding} {lib : Lib}.

(** The loop leaves the keyring and the hash alone. *)
Lemma DecryptData_range_frame :
  forall keys ct (s : State),
    PrivateKeys (client (snd (DecryptData_range keys ct s))) = PrivateKeys (client s) /\
    Hash (client (snd (DecryptData_range keys ct s))) = Hash (client s).
Proof.
  induction keys as [|key keys IH]; intros ct s; [now split|].
  destruct (DecryptOAEP (Hash (client s)) (Reader (client s)) key ct None)
    as [[d e] r1] eqn:E.
  rewrite (DecryptData_range_cons _ _ _ _ _ _ _ E). cbv zeta.
  destruct e as [e|]; [|now split].
  destruct (IH ct {| client := with_Reader (client s) r1;
                     calls := (calls s ++ [CallDecryptOAEP key])%list |}) as [Hk Hh].
  rewrite Hk, Hh. now split.
Qed.

(** The attempts the loop makes are a prefix of the keys it is given. *)
Lemma DecryptData_range_prefix :
  forall keys ct (s : State),
    exists n,
      (n <= List.length keys)%nat /\
      calls (snd (DecryptData_range keys ct s)) =
        (calls s ++ map CallDecryptOAEP (firstn n keys))%list.
Proof.
  induction keys as [|key keys IH]; intros ct s.
  - exists 0%nat. split; [apply Nat.le_refl|]. cbn. now rewrite app_nil_r.
  - destruct (DecryptOAEP (Hash (client s)) (Reader (client s)) key ct None)
      as [[d e] r1] eqn:E.
    rewrite (DecryptData_range_cons _ _ _ _ _ _ _ E). cbv zeta.
    destruct e as [e|].
    + destruct (IH ct {| client := with_Reader (client s) r1;
                         calls := (calls s ++ [CallDecryptOAEP key])%list |})
        as (n & Hn & Hc).
      exists (S n). split; [cbn; lia|].
      rewrite Hc. cbn. now rewrite <- app_assoc.
    + exists 1%nat. split; [cbn; lia|]. reflexivity.
Qed.

(** A result without error is what one key of the list returned for the
    ciphertext, after every key before it had failed. *)
Lemma DecryptData_range_sound :
  forall keys ct (s s' : State) d,
    DecryptData_range keys ct s = ((d, None), s') ->
    exists pre key post r r',
      keys = (pre ++ key :: post)%list /\
      DecryptOAEP (Hash (client s)) r key ct None = ((d, None), r') /\
      (forall k, In k pre ->
         exists r1, snd (fst (DecryptOAEP (Hash (client s)) r1 k ct None)) <> None) /\
      Reader (client s') = r' /\
      calls s' = (calls s ++ map CallDecryptOAEP (pre ++ [key]))%list.
Proof.
  induction keys as [|key keys IH]; intros ct s s' d H; [discriminate H|].
  destruct (DecryptOAEP (Hash (client s)) (Reader (client s)) key ct None)
    as [[d0 e] r1] eqn:E.
  rewrite (DecryptData_range_cons _ _ _ _ _ _ _ E) in H. cbv zeta in H.
  destruct e as [e|].
  - destruct (IH _ _ _ _ H) as (pre & k & post & r & r' & -> & Hd & Hpre & Hr & Hc).
    exists (key :: pre), k, post, r, r'. cbn in Hd, Hpre |- *.
    split; [reflexivity|]. split; [exact Hd|]. split; [|split; [exact Hr|]].
    + intros k0 [<- | Hin]; [|now apply Hpre].
      exists (Reader (client s)). rewrite E. discriminate.
    + rewrite Hc. cbn. now rewrite <- app_assoc.
  - injection H as <- <-.
    exists [], key, keys, (Reader (client s)), r1.
    split; [reflexivity|]. split; [exact E|].
    split; [intros k []|]. split; reflexivity.
Qed.

(** A success does not depend on the keys that follow the one that
    succeeded. *)
Lemma DecryptData_range_app :
  forall keys more ct (s s' : State) d,
    DecryptData_range keys ct s = ((d, None), s') ->
    DecryptData_range (keys ++ more) ct s = ((d, None), s').
Proof.
  induction keys as [|key keys IH]; intros more ct s s' d H; [discriminate H|].
  destruct (DecryptOAEP (Hash (client s)) (Reader (client s)) key ct None)
    as [[d0 e] r1] eqn:E.
  cbn [app]. rewrite (DecryptData_range_cons key keys _ _ _ _ _ E) in H.
  rewrite (DecryptData_range_cons key (keys ++ more) _ _ _ _ _ E). cbv zeta in *.
  destruct e as [e|]; [now apply IH | exact H].
Qed.

(** The loop reads the reader and the hash of the state, not its
    keyring: two states that differ in the keyring only run alike. *)
Lemma DecryptData_range_keyring :
  forall keys ct ks1 ks2 rd h cs,
    let s1 := {| client := {| PrivateKeys := ks1; Reader := rd; Hash := h |};
                 calls := cs |} in
    let s2 := {| client := {| PrivateKeys := ks2; Reader := rd; Hash := h |};
                 calls := cs |} in
    fst (DecryptData_range keys ct s1) = fst (DecryptData_range keys ct s2) /\
    Reader (client (snd (DecryptData_range keys ct s1))) =
      Reader (client (snd (DecryptData_range keys ct s2))) /\
    calls (snd (DecryptData_range keys ct s1)) =
      calls (snd (DecryptData_range keys ct s2)).
Proof.
  induction keys as [|key keys IH]; intros ct ks1 ks2 rd h cs s1 s2;
    [repeat split|].
  destruct (DecryptOAEP h rd key ct None) as [[d e] r1] eqn:E.
  rewrite (DecryptData_range_cons key keys ct s1 d e r1 E).
  rewrite (DecryptData_range_cons key keys ct s2 d e r1 E). cbv zeta.
  destruct e as [e|]; [|repeat split].
  apply (IH ct ks1 ks2 r1 h (cs ++ [CallDecryptOAEP key])%list).
Qed.

(** X1. Whatever [DecryptData] returns without an error was returned by
    [rsa.DecryptOAEP] for the decoded input under one key of the keyring,
    after each key before it had been tried and had failed; the record of
    calls shows those attempts and no other. *)
Theorem DecryptData_sound :
  forall (s s' : State) inData d,
    DecryptData inData s = ((d, None), s') ->
    exists ct pre key post r r',
      DecodeString (string_of_list_byte inData) = (ct, None) /\
      PrivateKeys (client s) = (pre ++ key :: post)%list /\
      DecryptOAEP (Hash (client s)) r key ct None = ((d, None), r') /\
      (forall k, In k pre ->
         exists r1, snd (fst (DecryptOAEP (Hash (client s)) r1 k ct None)) <> None) /\
      calls s' = (calls s ++ map CallDecryptOAEP (pre ++ [key]))%list.
Proof.
  intros s s' inData d H. unfold DecryptData in H.
  destruct (DecodeString (string_of_list_byte inData)) as [ct [e|]] eqn:Hdec;
    [discriminate H|].
  unfold bind, get in H.
  destruct (DecryptData_range_sound _ _ _ _ _ H)
    as (pre & key & post & r & r' & Hk & Hd & Hpre & _ & Hc).
  exists ct, pre, key, post, r, r'. repeat split; assumption.
Qed.

(** X2. Neither method changes the keyring or the hash of the client, and
    neither removes or rewrites an entry of the record of library calls:
    [EncryptData] adds exactly one [EncryptOAEP] call, [DecryptData] adds
    [DecryptOAEP] calls only. *)
Theorem keyring_is_read_only :
  forall (s : State) (inData : bytes) (pub : PublicKey),
    (PrivateKeys (client (snd (EncryptData inData pub s))) = PrivateKeys (client s) /\
     Hash (client (snd (EncryptData inData pub s))) = Hash (client s) /\
     calls (snd (EncryptData inData pub s)) = (calls s ++ [CallEncryptOAEP pub])%list)
    /\
    (PrivateKeys (client (snd (DecryptData inData s))) = PrivateKeys (client s) /\
     Hash (client (snd (DecryptData inData s))) = Hash (client s) /\
     exists keys, calls (snd (DecryptData inData s)) =
                    (calls s ++ map CallDecryptOAEP keys)%list).
Proof.
  intros s inData pub. split.
  - unfold EncryptData, bind, rsa_EncryptOAEP.
    destruct (EncryptOAEP (Hash (client s)) (Reader (client s)) pub inData None)
      as [[d e] r']. repeat split.
  - unfold DecryptData.
    destruct (DecodeString (string_of_list_byte inData)) as [ct [e|]].
    + cbn. repeat split. exists []. now rewrite app_nil_r.
    + unfold bind, get.
      destruct (DecryptData_range_frame (PrivateKeys (client s)) ct s) as [Hk Hh].
      destruct (DecryptData_range_prefix (PrivateKeys (client s)) ct s) as (n & _ & Hc).
      split; [exact Hk|]. split; [exact Hh|]. eexists; exact Hc.
Qed.

(** X5. [DecryptData] tries each key at most once and in keyring order:
    the [DecryptOAEP] calls it makes are those for the first [n] keys of
    the keyring, for some [n] up to its length. *)
Theorem DecryptData_attempts_are_a_prefix :
  forall (s : State) (inData : bytes),
    exists n,
      (n <= List.length (PrivateKeys (client s)))%nat /\
      calls (snd (DecryptData inData s)) =
        (calls s ++ map CallDecryptOAEP (firstn n (PrivateKeys (client s))))%list.
Proof.
  intros s inData. unfold DecryptData.
  destruct (DecodeString (string_of_list_byte inData)) as [ct [e|]].
  - exists 0%nat. split; [lia|]. cbn. now rewrite app_nil_r.
  - unfold bind, get. apply DecryptData_range_prefix.
Qed.

(** X6. A client with an empty keyring never decrypts: [DecryptData]
    returns an error with nil data on every input, makes no library call
    and leaves the state as it was.  [EncryptData] does not look at the
    keyring at all: its result is the same whatever the keyring holds. *)
Theorem empty_keyring_cannot_decrypt :
  forall rd h cs (inData : bytes),
    let s := {| client := {| PrivateKeys := []; Reader := rd; Hash := h |};
                calls := cs |} in
    (exists e, DecryptData inData s = ((None, Some e), s))
    /\
    (forall keys pub,
       fst (EncryptData inData pub
              {| client := {| PrivateKeys := keys; Reader := rd; Hash := h |};
                 calls := cs |})
       = fst (EncryptData inData pub s)).
Proof.
  intros rd h cs inData s. split.
  - unfold DecryptData.
    destruct (DecodeString (string_of_list_byte inData)) as [ct [e|]].
    + now exists e.
    + now exists errNoKey.
  - intros keys pub. unfold EncryptData, bind, rsa_EncryptOAEP. cbn [client Hash Reader s].
    destruct (EncryptOAEP h rd pub inData None) as [[d e] r']. reflexivity.
Qed.

(** X3. Key rotation by appending: when [DecryptData] succeeds, it
    returns the same data, makes the same calls and leaves the reader in
    the same state with any keys added at the end of the keyring; and an
    input the decoder rejects is rejected with the same error whatever the
    keyring. *)
Theorem appended_keys_keep_results :
  forall keys more rd h cs (inData : bytes),
    let s := {| client := {| PrivateKeys := keys; Reader := rd; Hash := h |};
                calls := cs |} in
    let s_more := {| client := {| PrivateKeys := keys ++ more; Reader := rd; Hash := h |};
                     calls := cs |} in
    (forall d s',
       DecryptData inData s = ((d, None), s') ->
       fst (DecryptData inData s_more) = (d, None) /\
       Reader (client (snd (DecryptData inData s_more))) = Reader (client s') /\
       calls (snd (DecryptData inData s_more)) = calls s')
    /\
    (forall partial e,
       DecodeString (string_of_list_byte inData) = (partial, Some e) ->
       fst (DecryptData inData s_more) = fst (DecryptData inData s)).
Proof.
  intros keys more rd h cs inData s s_more. split.
  - intros d s' H. unfold DecryptData in *.
    destruct (DecodeString (string_of_list_byte inData)) as [ct [e|]];
      [discriminate H|].
    unfold bind, get in *. cbn [client PrivateKeys s s_more] in *.
    pose proof (DecryptData_range_app keys more ct _ _ _ H) as Happ.
    destruct (DecryptData_range_keyring (keys ++ more) ct keys (keys ++ more) rd h cs)
      as (Hres & Hrd & Hcalls).
    fold s in Hres, Hrd, Hcalls. fold s_more in Hres, Hrd, Hcalls.
    rewrite Happ in Hres, Hrd, Hcalls. cbn [fst snd] in Hres, Hrd, Hcalls.
    rewrite <- Hres, <- Hrd, <- Hcalls. repeat split.
  - intros partial e Hdec. unfold DecryptData. rewrite Hdec. reflexivity.
Qed.

End Runs.

Section LibraryContract.
Context {enc : Encoding} {lib : Lib} {defaults : clientconfig.Defaults}.

Hypothesis base64_round_trip :
  forall b : bytes, DecodeString (EncodeToString b) = (b, None).

Hypothesis OAEP_fits :
  forall h r pub priv msg,
    KeyPair pub priv ->
    len msg <= Size pub - 2 * hash_Size h - 2 ->
    exists ct r', EncryptOAEP h r pub msg None = ((Some ct, None), r').

Hypothesis OAEP_pair_decrypts :
  forall h r r' pub priv msg ct,
    KeyPair pub priv ->
    EncryptOAEP h r pub msg None = ((Some ct, None), r') ->
    forall r2, exists r3, DecryptOAEP h r2 priv ct None = ((Some msg, None), r3).

Hypothesis OAEP_genuine :
  forall h r r' pub msg ct key r2 d r3,
    EncryptOAEP h r pub msg None = ((Some ct, None), r') ->
    DecryptOAEP h r2 key ct None = ((d, None), r3) ->
    d = Some msg.

(** X4. What [EncryptData] returns as data is never nil and is always
    text the decoder accepts: it decodes to what [rsa.EncryptOAEP]
    returned, which is nothing when the library failed; the error beside
    it is the library's, unchanged. *)
Theorem EncryptData_output_decodes :
  forall (s : State) (p : bytes) (pub : PublicKey),
    let res := fst (EncryptOAEP (Hash (client s)) (Reader (client s)) pub p None) in
    exists b,
      fst (EncryptData p pub s) = (Some b, snd res) /\
      DecodeString (string_of_list_byte b) = (content (fst res), None).
Proof.
  intros s p pub res. subst res.
  destruct (EncryptOAEP (Hash (client s)) (Reader (client s)) pub p None)
    as [[d e] r'] eqn:E.
  rewrite (EncryptData_run _ _ _ _ _ _ E). cbn [fst snd].
  eexists; split; [reflexivity|].
  rewrite string_of_list_byte_of_string. apply base64_round_trip.
Qed.

(** X7. Clients built by [NewClient] interoperate when their
    configurations name the same hash, in particular when both leave it
    out: what one encrypts under the public key of a pair, within the OAEP
    bound of that hash, the other decrypts if its keyring holds the
    private key.  The readers of the two, and the keyring of the
    encrypting one, play no part. *)
Theorem NewClient_clients_interoperate :
  forall (cfgE cfgD : clientconfig.ClientConfig) (p : bytes)
         (pub : PublicKey) (priv : PrivateKey),
    KeyPair pub priv ->
    clientconfig.Hash cfgD = clientconfig.Hash cfgE ->
    In priv (clientconfig.PrivateKeys cfgD) ->
    len p <= Size pub - 2 * hash_Size (clientconfig.effective_Hash cfgE) - 2 ->
    exists data s1 s3,
      EncryptData p pub (clientconfig.started (clientconfig.NewClient cfgE))
        = ((Some data, None), s1) /\
      DecryptData data (clientconfig.started (clientconfig.NewClient cfgD))
        = ((Some p, None), s3).
Proof.
  intros cfgE cfgD p pub priv Hpair Hhash Hin Hlen.
  set (sE := clientconfig.started (clientconfig.NewClient cfgE)).
  set (sD := clientconfig.started (clientconfig.NewClient cfgD)).
  assert (HhE : Hash (client sE) = clientconfig.effective_Hash cfgE) by reflexivity.
  assert (HhD : Hash (client sD) = clientconfig.effective_Hash cfgE).
  { cbn. unfold clientconfig.effective_Hash. now rewrite Hhash. }
  destruct (OAEP_fits (Hash (client sE)) (Reader (client sE)) pub priv p Hpair)
    as (ct & r' & Henc); [rewrite HhE; exact Hlen|].
  destruct (DecryptData_range_recovers OAEP_pair_decrypts OAEP_genuine
              _ _ _ _ _ _ _ Hpair Henc (PrivateKeys (client sD)) sD)
    as [s3 H3]; [now rewrite HhD, HhE | exact Hin |].
  exists (list_byte_of_string (EncodeToString ct)). eexists. exists s3. split.
  - apply (EncryptData_run _ _ _ _ _ _ Henc).
  - rewrite (DecryptData_decodes base64_round_trip). exact H3.
Qed.

End LibraryContract.

(** *** The statements on concrete data *)

Section MoreExamples.
Import examples examples_more.
#[local] Existing Instance base64url.URLEncoding.
#[local] Existing Instance envelope.lib.

Lemma DecryptData_sound_witness :
  exists s',
    DecryptData sealed (keyring [keyA; keyB]) = ((Some secret, None), s') /\
    exists ct pre key post r r',
      DecodeString (string_of_list_byte sealed) = (ct, None) /\
      PrivateKeys (client (keyring [keyA; keyB])) = (pre ++ key :: post)%list /\
      DecryptOAEP (Hash (client (keyring [keyA; keyB]))) r key ct None
        = ((Some secret, None), r') /\
      (forall k, In k pre ->
         exists r1,
           snd (fst (DecryptOAEP (Hash (client (keyring [keyA; keyB]))) r1 k ct None))
             <> None) /\
      calls s' = (calls (keyring [keyA; keyB]) ++ map CallDecryptOAEP (pre ++ [key]))%list.
Proof.
  eexists. split; [reflexivity|].
  exact (DecryptData_sound (keyring [keyA; keyB]) _ sealed (Some secret) eq_refl).
Defined.

Lemma appended_keys_keep_results_witness :
  fst (DecryptData sealed (keyring [keyA; keyB; keyA])) = (Some secret, None) /\
  calls (snd (DecryptData sealed (keyring [keyA; keyB; keyA])))
    = [CallDecryptOAEP keyA; CallDecryptOAEP keyB].
Proof.
  assert (Hrun : DecryptData sealed (keyring [keyA; keyB]) =
                 ((Some secret, None), snd (DecryptData sealed (keyring [keyA; keyB]))))
    by reflexivity.
  destruct (proj1 (appended_keys_keep_results [keyA; keyB] [keyA] 7%N tt [] sealed)
              (Some secret) _ Hrun) as (Hres & _ & Hcalls).
  split; [exact Hres | exact Hcalls].
Defined.

Lemma EncryptData_output_decodes_witness :
  exists b,
    fst (EncryptData long_secret pubB (keyring [])) = (Some b, Some ErrMessageTooLong) /\
    DecodeString (string_of_list_byte b) = ([], None).
Proof.
  exact (EncryptData_output_decodes base64url_facts.url_DecodeString_EncodeToString
           (keyring []) long_secret pubB).
Defined.

Lemma NewClient_clients_interoperate_witness :
  KeyPair pubB keyB /\
  clientconfig.Hash (keys_only [keyA; keyB]) = clientconfig.Hash (keys_only []) /\
  In keyB (clientconfig.PrivateKeys (keys_only [keyA; keyB])) /\
  exists data s1 s3,
    EncryptData secret pubB (clientconfig.started (clientconfig.NewClient (keys_only [])))
      = ((Some data, None), s1) /\
    DecryptData data
      (clientconfig.started (clientconfig.NewClient (keys_only [keyA; keyB])))
      = ((Some secret, None), s3).
Proof.
  assert (Hin : In keyB (clientconfig.PrivateKeys (keys_only [keyA; keyB])))
    by (right; left; reflexivity).
  split; [reflexivity|]. split; [reflexivity|]. split; [exact Hin|].
  exact (NewClient_clients_interoperate
           base64url_facts.url_DecodeString_EncodeToString
           envelope_facts.envelope_EncryptOAEP_fits
           envelope_facts.envelope_DecryptOAEP_EncryptOAEP
           envelope_facts.envelope_DecryptOAEP_genuine
           (keys_only []) (keys_only [keyA; keyB]) secret pubB keyB
           eq_refl eq_refl Hin secret_fits).
Defined.

End MoreExamples.

End cryptodata_more.

(** * More properties of package grpc *)

Module grpc_more.
Import grpc grpc_terms.
Import grpc_spec.

(** ** Server options *)

(** X8. An option is in the list [getGrpcOptions] returns exactly when
    its setting calls for it: the stream limit and the message size when
    they are positive, carrying the configured value (zero and negative
    values give no option), and the two keepalive options when keepalive
    is enabled. *)
Theorem getGrpcOptions_membership :
  forall cfg o,
    In o (getGrpcOptions cfg) <->
    match o with
    | grpc_MaxConcurrentStreams n => n = MaxConcurrentStreams cfg /\ 0 < n
    | grpc_MaxRecvMsgSize m => m = MaxMsgSize cfg /\ 0 < m
    | grpc_KeepaliveEnforcementPolicy kep => KeepaliveEnable cfg = true /\ kep = kaep cfg
    | grpc_KeepaliveParams kp => KeepaliveEnable cfg = true /\ kp = kasp cfg
    end.
Proof.
  intros cfg o. rewrite getGrpcOptions_shape. unfold limits.
  destruct (Z.ltb_spec 0 (MaxConcurrentStreams cfg)) as [Hs | Hs];
    destruct (Z.ltb_spec 0 (MaxMsgSize cfg)) as [Hm | Hm];
    destruct (KeepaliveEnable cfg); cbn [app In];
    (split;
     [ intros H;
       repeat (destruct H as [<- | H]; [split; (reflexivity || assumption)|]);
       contradiction
     | destruct o; intros [H1 H2]; subst;
       first [ discriminate | lia | tauto ] ]).
Qed.

(** X9. The options come in one order, each kind at most once: stream
    limit, message size, keepalive policy, keepalive parameters; so there
    are never more than four. *)
Theorem getGrpcOptions_order :
  forall cfg,
    StronglySorted lt (map rank (getGrpcOptions cfg)) /\
    (List.length (getGrpcOptions cfg) <= 4)%nat.
Proof.
  intros cfg. rewrite getGrpcOptions_shape. unfold limits.
  destruct (0 <? MaxConcurrentStreams cfg), (0 <? MaxMsgSize cfg),
    (KeepaliveEnable cfg); cbn; (split; [repeat constructor | lia]).
Qed.

(** ** TLS configuration *)

Section MoreTLS.
Context {lib : tls.Lib}.

(** What a successful [getTLS] went through. *)
Lemma getTLS_success_cases :
  forall cfg tc,
    getTLS cfg = (Some tc, None) ->
    ~ tls_off cfg /\
    exists cert,
      tls.LoadX509KeyPair (Certfile cfg) (Keyfile cfg) = (cert, None) /\
      ((CAfiles cfg = [] /\ tc = server_only cert) \/
       (CAfiles cfg <> [] /\
        exists pool,
          pool_from tls.NewCertPool (CAfiles cfg) pool /\ tc = mutual cert pool)).
Proof.
  intros cfg tc H.
  destruct (tls_off_dec cfg) as [Hoff | Hon].
  { rewrite (getTLS_when_off cfg Hoff) in H. discriminate H. }
  split; [exact Hon|]. rewrite (getTLS_when_on cfg Hon) in H.
  destruct (tls.LoadX509KeyPair (Certfile cfg) (Keyfile cfg)) as [cert [e|]];
    [discriminate H|].
  exists cert. split; [reflexivity|].
  destruct (CAfiles cfg) as [|c files] eqn:Efiles.
  - left. injection H as <-. now split.
  - right. split; [discriminate|].
    destruct (getTLS_range (c :: files) tls.NewCertPool) as [pool | e] eqn:E;
      [|discriminate H].
    injection H as <-. exists pool. split; [now apply getTLS_range_inl | reflexivity].
Qed.

(** X10. When [getTLS] succeeds, and only then: TLS is not switched off,
    the certificate and key load as a pair, and either there are no CA
    files and the result is the server-only configuration of that pair, or
    every CA file loads and the result is the mutual configuration with
    the pool of all of them. *)
Theorem getTLS_succeeds_iff :
  forall cfg tc,
    getTLS cfg = (Some tc, None) <->
    (~ tls_off cfg /\
     exists cert,
       tls.LoadX509KeyPair (Certfile cfg) (Keyfile cfg) = (cert, None) /\
       ((CAfiles cfg = [] /\ tc = server_only cert) \/
        (CAfiles cfg <> [] /\
         exists pool,
           pool_from tls.NewCertPool (CAfiles cfg) pool /\ tc = mutual cert pool))).
Proof.
  intros cfg tc. split; [apply getTLS_success_cases|].
  intros (Hon & cert & Hload & Hcase).
  rewrite (getTLS_when_on cfg Hon), Hload.
  destruct Hcase as [[Hnil ->] | (Hca & pool & Hpool & ->)].
  - rewrite Hnil. reflexivity.
  - apply getTLS_range_inl in Hpool. rewrite Hpool.
    destruct (CAfiles cfg); [contradiction | reflexivity].
Qed.

(** X11. Every configuration [getTLS] returns has TLS 1.2 as its lowest
    version and the configured key pair as its only certificate.  It
    requires and verifies client certificates when CA files are
    configured and asks for none when they are not; it never stops at
    requesting a certificate without verifying it. *)
Theorem getTLS_config_shape :
  forall cfg tc,
    getTLS cfg = (Some tc, None) ->
    tls.MinVersion tc = tls.VersionTLS12 /\
    (exists cert,
       tls.LoadX509KeyPair (Certfile cfg) (Keyfile cfg) = (cert, None) /\
       tls.Certificates tc = [cert]) /\
    (CAfiles cfg = [] ->
     tls.ClientAuth tc = tls.NoClientCert /\ tls.ClientCAs tc = None) /\
    (CAfiles cfg <> [] ->
     tls.ClientAuth tc = tls.RequireAndVerifyClientCert /\ tls.ClientCAs tc <> None) /\
    (tls.ClientAuth tc = tls.NoClientCert \/
     tls.ClientAuth tc = tls.RequireAndVerifyClientCert).
Proof.
  intros cfg tc H.
  destruct (getTLS_success_cases cfg tc H) as (_ & cert & Hload & Hcase).
  destruct Hcase as [[Hnil ->] | (Hca & pool & _ & ->)]; cbn.
  - split; [reflexivity|]. split; [now exists cert|].
    split; [now split|]. split; [contradiction | now left].
  - split; [reflexivity|]. split; [now exists cert|].
    split; [contradiction|]. split; [split; [reflexivity | discriminate] | now right].
Qed.

(** X12. Which error comes back.  With TLS not switched off, a
    certificate file that cannot be read gives its read error; failing
    that, a key file that cannot be read gives its read error; failing
    that, a pair that does not parse gives the parser's error.  In all
    three cases the CA files play no part, whatever they are. *)
Theorem getTLS_key_pair_errors_first :
  forall cfg,
    ~ tls_off cfg ->
    (forall e,
       snd (tls.ReadFile (Certfile cfg)) = Some e ->
       getTLS cfg = (None, Some e))
    /\
    (forall e,
       snd (tls.ReadFile (Certfile cfg)) = None ->
       snd (tls.ReadFile (Keyfile cfg)) = Some e ->
       getTLS cfg = (None, Some e))
    /\
    (forall e,
       snd (tls.ReadFile (Certfile cfg)) = None ->
       snd (tls.ReadFile (Keyfile cfg)) = None ->
       snd (tls.X509KeyPair (content (fst (tls.ReadFile (Certfile cfg))))
              (content (fst (tls.ReadFile (Keyfile cfg))))) = Some e ->
       getTLS cfg = (None, Some e)).
Proof.
  intros cfg Hon. rewrite (getTLS_when_on cfg Hon). unfold tls.LoadX509KeyPair.
  destruct (tls.ReadFile (Certfile cfg)) as [certPEM [e1|]];
    destruct (tls.ReadFile (Keyfile cfg)) as [keyPEM [e2|]]; cbn [fst snd];
    (split; [|split]); intros e; try discriminate;
    try (intros H; injection H as ->; reflexivity);
    try (intros _ H; injection H as ->; reflexivity).
  intros _ _ H.
  destruct (tls.X509KeyPair (content certPEM) (content keyPEM)) as [cert [e3|]];
    [injection H as ->; reflexivity | discriminate H].
Qed.

End MoreTLS.

(** ** The port of the endpoint *)

Import strings strconv.

Lemma digit_range : forall c d, digit c = Some d -> 0 <= d <= 9.
Proof.
  intros c d. unfold digit.
  destruct (Z.leb_spec 48 (Z.of_N (N_of_ascii c))) as [Hlo | Hlo];
    destruct (Z.leb_spec (Z.of_N (N_of_ascii c)) 57) as [Hhi | Hhi]; cbn [andb];
    intros E; try discriminate E. injection E as <-. lia.
Qed.

(** The digit loop returns a value that fits [uint64]. *)
Lemma ParseUint_digits_range :
  forall s n v,
    0 <= n <= maxUint64 ->
    ParseUint_digits s n = (v, None) ->
    0 <= v <= maxUint64.
Proof.
  induction s as [|c s IH]; intros n v Hn H; cbn [ParseUint_digits] in H.
  - now injection H as <-.
  - destruct (digit c) as [d|] eqn:Hd; [|discriminate H].
    apply digit_range in Hd.
    destruct (maxUint64 / 10 + 1 <=? n); [discriminate H|].
    destruct (Z.ltb_spec maxUint64 (n * 10 + d)); [discriminate H|].
    apply (IH (n * 10 + d)); [lia | exact H].
Qed.

(** The digit loop fails on any text that has a character other than a
    digit in it. *)
Lemma ParseUint_digits_not_digit :
  forall s n,
    Exists not_digit (list_ascii_of_string s) ->
    snd (ParseUint_digits s n) <> None.
Proof.
  induction s as [|c s IH]; intros n H; cbn [list_ascii_of_string] in H.
  - inversion H.
  - cbn [ParseUint_digits].
    destruct (digit c) as [d|] eqn:Hd; [|discriminate].
    destruct (maxUint64 / 10 + 1 <=? n); [discriminate|].
    destruct (maxUint64 <? n * 10 + d); [discriminate|].
    apply IH. inversion H as [? ? Hc | ? ? Hs]; subst; [|exact Hs].
    unfold not_digit in Hc. rewrite Hd in Hc. discriminate Hc.
Qed.

(** On digits the loop computes the value, or reports the overflow. *)
Lemma ParseUint_digits_spec :
  forall ds acc,
    Forall is_digit ds ->
    0 <= acc <= maxUint64 ->
    ParseUint_digits (digits_string ds) acc =
      if digits_value ds acc <=? maxUint64
      then (digits_value ds acc, None)
      else (maxUint64, Some ErrRange).
Proof.
  induction ds as [|d ds IH]; intros acc Hds Hacc;
    cbn [digits_string ParseUint_digits digits_value].
  - destruct (Z.leb_spec acc maxUint64); [reflexivity | lia].
  - inversion Hds as [|? ? Hd Hds']; subst.
    rewrite (digit_digit_char d Hd). destruct Hd as [Hd0 Hd9].
    pose proof (digits_value_mono ds (acc * 10 + d) Hds' ltac:(lia)) as Hm.
    unfold maxUint64 in *.
    change ((2 ^ 64 - 1) / 10 + 1) with 1844674407370955162.
    destruct (Z.leb_spec 1844674407370955162 acc) as [Hc | Hc].
    + destruct (Z.leb_spec (digits_value ds (acc * 10 + d)) (2 ^ 64 - 1));
        [lia | reflexivity].
    + destruct (Z.ltb_spec (2 ^ 64 - 1) (acc * 10 + d)) as [Ho | Ho].
      * destruct (Z.leb_spec (digits_value ds (acc * 10 + d)) (2 ^ 64 - 1));
          [lia | reflexivity].
      * apply IH; [assumption | lia].
Qed.

(** With no error, [Atoi] returns a value that fits [int]. *)
Lemma Atoi_range :
  forall s v, Atoi s = (v, None) -> - 2 ^ 63 <= v < 2 ^ 63.
Proof.
  intros s v. unfold Atoi. destruct s as [|c rest]; [discriminate|].
  set (neg := Ascii.eqb c "-"). set (body := if Ascii.eqb c "+" || neg then rest else String c rest).
  destruct body as [|c0 body0] eqn:Hbody; [discriminate|].
  destruct (ParseUint_digits (String c0 body0) 0) as [un [cause|]] eqn:Hun.
  - destruct (String.eqb cause ErrSyntax); discriminate.
  - apply ParseUint_digits_range in Hun; [|unfold maxUint64; lia].
    destruct neg; cbn [negb andb];
      destruct (Z.leb_spec (2 ^ 63) un) as [Hle | Hle];
      destruct (Z.ltb_spec (2 ^ 63) un) as [Hlt | Hlt];
      intros E; try discriminate E; injection E as <-; lia.
Qed.

(** X13. [GetPort] returns a value of the range of [int], whatever the
    endpoint is. *)
Theorem GetPort_range :
  forall cfg, - 2 ^ 63 <= GetPort cfg < 2 ^ 63.
Proof.
  intros cfg. unfold GetPort.
  destruct (negb (Endpoint cfg =? "")%string && negb (Endpoint cfg =? ":")%string);
    [|lia].
  destruct (0 <=? LastIndex (Endpoint cfg) ":"); [|lia].
  destruct (Atoi _) as [port [e|]] eqn:E; [lia|].
  exact (Atoi_range _ _ E).
Qed.

Lemma sign_no_colon :
  forall sign ds,
    sign = "+"%char \/ sign = "-"%char ->
    Forall is_digit ds ->
    no_colon (String sign (digits_string ds)).
Proof.
  intros sign ds Hs Hds. split; [|now apply digits_string_no_colon].
  destruct Hs as [-> | ->]; discriminate.
Qed.

Lemma Atoi_signed :
  forall sign d ds,
    sign = "+"%char \/ sign = "-"%char ->
    Forall is_digit (d :: ds) ->
    Atoi (String sign (digits_string (d :: ds))) =
      let un := digits_value (d :: ds) 0 in
      let neg := Ascii.eqb sign "-" in
      let range := Some (NumError "Atoi" (String sign (digits_string (d :: ds))) ErrRange) in
      if maxUint64 <? un then ((if neg then - 2 ^ 63 else 2 ^ 63 - 1), range)
      else if negb neg && (2 ^ 63 <=? un) then (2 ^ 63 - 1, range)
      else if neg && (2 ^ 63 <? un) then (- 2 ^ 63, range)
      else ((if neg then - un else un), None).
Proof.
  intros sign d ds Hsign Hds. unfold Atoi.
  assert (Hbody : (if Ascii.eqb sign "+" || Ascii.eqb sign "-"
                   then digits_string (d :: ds)
                   else String sign (digits_string (d :: ds))) = digits_string (d :: ds)).
  { destruct Hsign as [-> | ->]; reflexivity. }
  rewrite Hbody. change (digits_string (d :: ds))
    with (String (digit_char d) (digits_string ds)) at 1.
  cbv iota. change (String (digit_char d) (digits_string ds))
    with (digits_string (d :: ds)).
  rewrite (ParseUint_digits_spec (d :: ds) 0 Hds) by (unfold maxUint64; lia).
  cbv zeta.
  destruct (Z.leb_spec (digits_value (d :: ds) 0) maxUint64);
    destruct (Z.ltb_spec maxUint64 (digits_value (d :: ds) 0)); try lia; reflexivity.
Qed.

(** X14. [GetPort] accepts a sign: after the last [:], a [-] and digits
    give the negated value (down to -2^63) and a [+] and digits give the
    value (below 2^63).  No range of valid ports is enforced. *)
Theorem GetPort_signed_port :
  forall cfg pre d ds,
    Forall is_digit (d :: ds) ->
    (Endpoint cfg = pre ++ String colon (String "-" (digits_string (d :: ds))) ->
     digits_value (d :: ds) 0 <= 2 ^ 63 ->
     GetPort cfg = - digits_value (d :: ds) 0)
    /\
    (Endpoint cfg = pre ++ String colon (String "+" (digits_string (d :: ds))) ->
     digits_value (d :: ds) 0 < 2 ^ 63 ->
     GetPort cfg = digits_value (d :: ds) 0).
Proof.
  intros cfg pre d ds Hds. split; intros E Hv.
  - rewrite (GetPort_suffix cfg pre _ E (sign_no_colon "-" _ (or_intror eq_refl) Hds)).
    rewrite (Atoi_signed "-" d ds (or_intror eq_refl) Hds). cbv zeta.
    change (Ascii.eqb "-" "-") with true. cbn [negb andb].
    destruct (Z.ltb_spec maxUint64 (digits_value (d :: ds) 0));
      [unfold maxUint64 in *; lia|].
    destruct (Z.ltb_spec (2 ^ 63) (digits_value (d :: ds) 0)); [lia | reflexivity].
  - rewrite (GetPort_suffix cfg pre _ E (sign_no_colon "+" _ (or_introl eq_refl) Hds)).
    rewrite (Atoi_signed "+" d ds (or_introl eq_refl) Hds). cbv zeta.
    change (Ascii.eqb "+" "-") with false. cbn [negb andb].
    destruct (Z.ltb_spec maxUint64 (digits_value (d :: ds) 0));
      [unfold maxUint64 in *; lia|].
    destruct (Z.leb_spec (2 ^ 63) (digits_value (d :: ds) 0)); [lia | reflexivity].
Qed.

Lemma Atoi_digits_overflow :
  forall d ds,
    Forall is_digit (d :: ds) ->
    2 ^ 63 <= digits_value (d :: ds) 0 ->
    snd (Atoi (digits_string (d :: ds))) <> None.
Proof.
  intros d ds Hds Hv.
  assert (Hd : is_digit d) by now inversion Hds.
  assert (Hsign : Ascii.eqb (digit_char d) "+" = false /\
                  Ascii.eqb (digit_char d) "-" = false).
  { destruct Hd as [H0 H9].
    assert (E : In d [0; 1; 2; 3; 4; 5; 6; 7; 8; 9]) by (cbn; lia).
    cbn in E. repeat (destruct E as [<- | E]; [now split|]). contradiction. }
  destruct Hsign as [Hplus Hminus].
  unfold Atoi. cbn [digits_string]. rewrite Hplus, Hminus. cbn [orb negb andb].
  change (String (digit_char d) (digits_string ds)) with (digits_string (d :: ds)).
  rewrite (ParseUint_digits_spec (d :: ds) 0 Hds) by (unfold maxUint64; lia).
  destruct (Z.leb_spec (digits_value (d :: ds) 0) maxUint64); [|discriminate].
  destruct (Z.leb_spec (2 ^ 63) (digits_value (d :: ds) 0)); [discriminate | lia].
Qed.

(** X15. A number too large for [int] is not clamped: digits after the
    last [:] whose value is 2^63 or more give 0, and so does a [-] followed
    by digits whose value is more than 2^63. *)
Theorem GetPort_overflow_is_zero :
  forall cfg pre d ds,
    Forall is_digit (d :: ds) ->
    (Endpoint cfg = pre ++ String colon (digits_string (d :: ds)) ->
     2 ^ 63 <= digits_value (d :: ds) 0 ->
     GetPort cfg = 0)
    /\
    (Endpoint cfg = pre ++ String colon (String "-" (digits_string (d :: ds))) ->
     2 ^ 63 < digits_value (d :: ds) 0 ->
     GetPort cfg = 0).
Proof.
  intros cfg pre d ds Hds. split; intros E Hv.
  - rewrite (GetPort_suffix cfg pre _ E (digits_string_no_colon _ Hds)).
    pose proof (Atoi_digits_overflow d ds Hds Hv) as Herr.
    destruct (Atoi (digits_string (d :: ds))) as [port [e|]];
      [reflexivity | now contradiction Herr].
  - rewrite (GetPort_suffix cfg pre _ E (sign_no_colon "-" _ (or_intror eq_refl) Hds)).
    rewrite (Atoi_signed "-" d ds (or_intror eq_refl) Hds). cbv zeta.
    change (Ascii.eqb "-" "-") with true. cbn [negb andb].
    destruct (Z.ltb_spec maxUint64 (digits_value (d :: ds) 0)); [reflexivity|].
    destruct (Z.ltb_spec (2 ^ 63) (digits_value (d :: ds) 0)); [reflexivity | lia].
Qed.

Lemma Atoi_not_digit :
  forall c body,
    Exists not_digit (list_ascii_of_string body) \/
    (not_digit c /\ c <> "+"%char /\ c <> "-"%char) ->
    snd (Atoi (String c body)) <> None.
Proof.
  intros c body H. unfold Atoi.
  set (neg := Ascii.eqb c "-").
  destruct (Ascii.eqb c "+" || neg) eqn:Hsign.
  - assert (Hbody : Exists not_digit (list_ascii_of_string body)).
    { destruct H as [H | (_ & Hp & Hm)]; [exact H|].
      apply orb_true_iff in Hsign. destruct Hsign as [Hs | Hs];
        apply Ascii.eqb_eq in Hs; contradiction. }
    destruct body as [|c0 body0]; [discriminate|].
    pose proof (ParseUint_digits_not_digit (String c0 body0) 0 Hbody) as Hp.
    destruct (ParseUint_digits (String c0 body0) 0) as [un [cause|]];
      [|now contradiction Hp].
    destruct (String.eqb cause ErrSyntax); discriminate.
  - assert (Hall : Exists not_digit (list_ascii_of_string (String c body))).
    { destruct H as [H | (Hc & _)]; [now apply Exists_cons_tl | now apply Exists_cons_hd]. }
    pose proof (ParseUint_digits_not_digit (String c body) 0 Hall) as Hp.
    destruct (ParseUint_digits (String c body) 0) as [un [cause|]];
      [|now contradiction Hp].
    destruct (String.eqb cause ErrSyntax); discriminate.
Qed.

(** X16. Text after the last [:] that is not a number gives 0: any
    character other than a digit after the first one, or a first
    character that is neither a digit nor a sign.  So a path or a host
    after the port, or a space inside it, turns the port into 0. *)
Theorem GetPort_not_a_number_is_zero :
  forall cfg pre c body,
    Endpoint cfg = pre ++ String colon (String c body) ->
    no_colon (String c body) ->
    Exists not_digit (list_ascii_of_string body) \/
    (not_digit c /\ c <> "+"%char /\ c <> "-"%char) ->
    GetPort cfg = 0.
Proof.
  intros cfg pre c body E Hno H.
  rewrite (GetPort_suffix cfg pre _ E Hno).
  pose proof (Atoi_not_digit c body H) as Herr.
  destruct (Atoi (String c body)) as [port [e|]];
    [reflexivity | now contradiction Herr].
Qed.

(** *** The statements on concrete data *)

Section MoreGrpcExamples.
Import examples.
#[local] Existing Instance testfs.lib.

Lemma getTLS_succeeds_iff_witness :
  let cfg := config ":9111" false "server.crt" "server.key" ["ca.pem"] in
  let cert : @tls.Certificate testfs.lib :=
    (list_byte_of_string "CERT", list_byte_of_string "KEY") in
  let pool : @tls.CertPool testfs.lib := [list_byte_of_string "CA"] in
  ~ tls_off cfg /\
  tls.LoadX509KeyPair (Certfile cfg) (Keyfile cfg) = (cert, None) /\
  pool_from tls.NewCertPool (CAfiles cfg) pool /\
  getTLS cfg = (Some (mutual cert pool), None).
Proof.
  intros cfg cert pool.
  assert (Hpool : pool_from tls.NewCertPool (CAfiles cfg) pool).
  { econstructor; [reflexivity | constructor]. }
  split; [apply server_tls_on|]. split; [reflexivity|]. split; [exact Hpool|].
  apply (proj2 (getTLS_succeeds_iff cfg (mutual cert pool))).
  split; [apply server_tls_on|]. exists cert. split; [reflexivity|].
  right. split; [discriminate|]. exists pool. now split.
Defined.

Lemma getTLS_config_shape_witness :
  let cfg := config ":9111" false "server.crt" "server.key" [] in
  let cert : @tls.Certificate testfs.lib :=
    (list_byte_of_string "CERT", list_byte_of_string "KEY") in
  getTLS cfg = (Some (server_only cert), None) /\
  tls.MinVersion (server_only cert) = tls.VersionTLS12 /\
  tls.ClientAuth (server_only cert) = tls.NoClientCert /\
  tls.ClientCAs (server_only cert) = None.
Proof.
  intros cfg cert.
  assert (Hrun : getTLS cfg = (Some (server_only cert), None)) by reflexivity.
  destruct (getTLS_config_shape cfg _ Hrun) as (Hmin & _ & Hnone & _).
  destruct (Hnone eq_refl) as [Hauth Hcas].
  split; [exact Hrun|]. split; [exact Hmin|]. split; [exact Hauth | exact Hcas].
Defined.

Lemma getTLS_key_pair_errors_first_witness :
  let cfg := config ":9111" false "" "server.key" ["missing.pem"] in
  let e := PathError "open" "" "no such file or directory" in
  ~ tls_off cfg /\
  snd (tls.ReadFile (Certfile cfg)) = Some e /\
  getTLS cfg = (None, Some e).
Proof.
  intros cfg e.
  assert (Hon : ~ tls_off cfg).
  { intros [H | [_ H]]; discriminate H. }
  split; [exact Hon|]. split; [reflexivity|].
  exact (proj1 (getTLS_key_pair_errors_first cfg Hon) e eq_refl).
Defined.

Lemma GetPort_signed_port_witness :
  let cfg := config "host:-80" true "" "" [] in
  Forall is_digit [8; 0] /\
  Endpoint cfg = "host" ++ String colon (String "-" (digits_string [8; 0])) /\
  digits_value [8; 0] 0 <= 2 ^ 63 /\
  GetPort cfg = - 80.
Proof.
  intros cfg.
  assert (Hds : Forall is_digit [8; 0]) by (repeat constructor; discriminate).
  assert (Hv : digits_value [8; 0] 0 <= 2 ^ 63) by discriminate.
  split; [exact Hds|]. split; [reflexivity|]. split; [exact Hv|].
  exact (proj1 (GetPort_signed_port cfg "host" 8 [0] Hds) eq_refl Hv).
Defined.

Lemma GetPort_overflow_is_zero_witness :
  let cfg := config "host:9223372036854775808" true "" "" [] in
  let ds := [9; 2; 2; 3; 3; 7; 2; 0; 3; 6; 8; 5; 4; 7; 7; 5; 8; 0; 8] in
  Forall is_digit ds /\
  Endpoint cfg = "host" ++ String colon (digits_string ds) /\
  2 ^ 63 <= digits_value ds 0 /\
  GetPort cfg = 0.
Proof.
  intros cfg ds.
  assert (Hds : Forall is_digit ds) by (repeat constructor; discriminate).
  assert (Hv : 2 ^ 63 <= digits_value ds 0) by discriminate.
  split; [exact Hds|]. split; [reflexivity|]. split; [exact Hv|].
  exact (proj1 (GetPort_overflow_is_zero cfg "host" 9 (tl ds) Hds) eq_refl Hv).
Defined.

Lemma GetPort_not_a_number_is_zero_witness :
  let cfg := config "host:80/tcp" true "" "" [] in
  Endpoint cfg = "host" ++ String colon (String "8" "0/tcp") /\
  no_colon (String "8" "0/tcp") /\
  Exists not_digit (list_ascii_of_string "0/tcp") /\
  GetPort cfg = 0.
Proof.
  intros cfg.
  assert (Hno : no_colon (String "8" "0/tcp")) by (repeat split; discriminate).
  assert (Hbad : Exists not_digit (list_ascii_of_string "0/tcp")).
  { apply Exists_cons_tl, Exists_cons_hd. reflexivity. }
  split; [reflexivity|]. split; [exact Hno|]. split; [exact Hbad|].
  exact (GetPort_not_a_number_is_zero cfg "host" "8" "0/tcp" eq_refl Hno
           (or_introl Hbad)).
Defined.

End MoreGrpcExamples.

End grpc_more.

(** * Properties of the port flag *)

Module grpcflag_spec.
Import flag grpcflag.

Lemma length_append :
  forall s t, String.length (s ++ t) = (String.length s + String.length t)%nat.
Proof.
  induction s as [|c s IH]; intros t; cbn; [reflexivity | now rewrite IH].
Qed.

Lemma append_cancel_r :
  forall s1 s2 t, s1 ++ t = s2 ++ t -> s1 = s2.
Proof.
  induction s1 as [|c s1 IH]; intros [|c' s2] t H; cbn in H.
  - reflexivity.
  - apply (f_equal String.length) in H. cbn in H. rewrite length_append in H. lia.
  - apply (f_equal String.length) in H. cbn in H. rewrite length_append in H. lia.
  - injection H as -> H. f_equal. now apply (IH s2 t).
Qed.

Lemma Lookup_app :
  forall (fs : FlagSet) f name,
    Lookup (fs ++ [f])%list name =
      match Lookup fs name with
      | Some x => Some x
      | None => if String.eqb (Name f) name then Some f else None
      end.
Proof.
  induction fs as [|g fs IH]; intros f name; cbn.
  - reflexivity.
  - destruct (String.eqb (Name g) name); [reflexivity | apply IH].
Qed.

Section FlagProperties.
Context {env : Env} {checks : Checks}.

(** X17. Two plugin names get the same flag exactly when they are equal
    once lowered: the flag name tells plugins apart up to case only. *)
Theorem grpcPortFlag_same_iff :
  forall a b, grpcPortFlag a = grpcPortFlag b <-> ToLower a = ToLower b.
Proof.
  intros a b. unfold grpcPortFlag. split.
  - apply append_cancel_r.
  - now intros ->.
Qed.

Lemma DeclareGRPCPortFlag_run :
  forall a fs,
    DeclareGRPCPortFlag a fs =
      if well_formed (grpcPortFlag a) then
        match Lookup fs (grpcPortFlag a) with
        | Some _ => PanicRedefined (grpcPortFlag a)
        | None =>
            Returns (fs ++ [{| Name := grpcPortFlag a;
                               Usage := "Configure Agent' " ++ ToUpper a ++
                                        " net listener (port & timeouts); also set via '" ++
                                        ToUpper a ++ EnvSuffix ++ "' env variable.";
                               DefValue := "" |}])%list
        end
      else PanicBadName (grpcPortFlag a).
Proof. reflexivity. Qed.

(** X18. [DeclareGRPCPortFlag] returns exactly when the flag library
    accepts the name of the flag and the flag is not yet defined; with a
    name the library accepts and the flag defined already, it panics.  When
    it returns, the flag of the plugin is defined with the empty string as
    its default, and every other flag is what it was. *)
Theorem DeclareGRPCPortFlag_defines :
  forall a fs,
    ((exists fs', DeclareGRPCPortFlag a fs = Returns fs') <->
     well_formed (grpcPortFlag a) = true /\ Lookup fs (grpcPortFlag a) = None) /\
    (DeclareGRPCPortFlag a fs = PanicRedefined (grpcPortFlag a) <->
     well_formed (grpcPortFlag a) = true /\ Lookup fs (grpcPortFlag a) <> None) /\
    (forall fs',
       DeclareGRPCPortFlag a fs = Returns fs' ->
       (exists f, Lookup fs' (grpcPortFlag a) = Some f /\
                  Name f = grpcPortFlag a /\ DefValue f = "") /\
       (forall name, name <> grpcPortFlag a -> Lookup fs' name = Lookup fs name)).
Proof.
  intros a fs. rewrite DeclareGRPCPortFlag_run.
  destruct (well_formed (grpcPortFlag a)).
  2:{ split; [|split].
      - split; [intros [fs' H]; discriminate H | intros [H _]; discriminate H].
      - split; [discriminate | intros [H _]; discriminate H].
      - intros fs' H. discriminate H. }
  destruct (Lookup fs (grpcPortFlag a)) as [g|] eqn:Hl.
  - split; [|split].
    + split; [intros [fs' H]; discriminate H | intros [_ H]; discriminate H].
    + split; [intros _; split; [reflexivity | discriminate] | reflexivity].
    + intros fs' H. discriminate H.
  - split; [|split].
    + split; [intros _; now split | intros _; eexists; reflexivity].
    + split; [discriminate | intros [_ H]; now contradiction H].
    + intros fs' H. injection H as <-. split.
      * eexists. rewrite Lookup_app, Hl. cbn [Name]. rewrite String.eqb_refl.
        split; [reflexivity | now split].
      * intros name Hne. rewrite Lookup_app.
        destruct (Lookup fs name); [reflexivity|]. cbn [Name].
        destruct (String.eqb_spec (grpcPortFlag a) name) as [E | _];
          [now contradiction Hne | reflexivity].
Qed.

(** X19. Once the flag has been declared for a plugin, declaring it for
    a plugin of the same name up to case, the same plugin included,
    panics with a redefinition of that flag. *)
Theorem DeclareGRPCPortFlag_again_panics :
  forall a b fs fs',
    DeclareGRPCPortFlag a fs = Returns fs' ->
    ToLower b = ToLower a ->
    DeclareGRPCPortFlag b fs' = PanicRedefined (grpcPortFlag a).
Proof.
  intros a b fs fs' H Hcase. rewrite DeclareGRPCPortFlag_run in H.
  rewrite DeclareGRPCPortFlag_run.
  replace (grpcPortFlag b) with (grpcPortFlag a)
    by (unfold grpcPortFlag; now rewrite Hcase).
  destruct (well_formed (grpcPortFlag a)); [|discriminate H].
  destruct (Lookup fs (grpcPortFlag a)) eqn:Hl; [discriminate H|].
  injection H as <-.
  rewrite Lookup_app, Hl. cbn [Name]. now rewrite String.eqb_refl.
Qed.

End FlagProperties.

Section FlagExamples.
Import ascii_case.
#[local] Existing Instance flag_checks.since_1_17.

Lemma DeclareGRPCPortFlag_again_panics_witness :
  exists fs',
    DeclareGRPCPortFlag "GRPC" [] = Returns fs' /\
    ToLower "grpc" = ToLower "GRPC" /\
    DeclareGRPCPortFlag "grpc" fs' = PanicRedefined "grpc-port".
Proof.
  assert (Hrun : exists fs', DeclareGRPCPortFlag "GRPC" [] = Returns fs')
    by (eexists; vm_compute; reflexivity).
  destruct Hrun as [fs' Hrun]. exists fs'.
  split; [exact Hrun|]. split; [reflexivity|].
  exact (DeclareGRPCPortFlag_again_panics "GRPC" "grpc" [] fs' Hrun eq_refl).
Defined.

Lemma DeclareGRPCPortFlag_defines_witness :
  exists fs',
    DeclareGRPCPortFlag "GRPC" [] = Returns fs' /\
    (exists f, Lookup fs' "grpc-port" = Some f /\
               Name f = "grpc-port" /\ DefValue f = "") /\
    Lookup fs' "http-port" = None.
Proof.
  assert (Hrun : exists fs', DeclareGRPCPortFlag "GRPC" [] = Returns fs')
    by (eexists; vm_compute; reflexivity).
  destruct Hrun as [fs' Hrun]. exists fs'.
  split; [exact Hrun|].
  destruct (proj2 (proj2 (DeclareGRPCPortFlag_defines "GRPC" [])) fs' Hrun)
    as [Hdef Hother].
  split; [exact Hdef|]. exact (Hother "http-port" ltac:(discriminate)).
Defined.

End FlagExamples.

End grpcflag_spec.

(** * Properties of package resync *)

Module resync_spec.
Import resync.

Section PluginProperties.
Context {env : Env}.

(** X20. Whatever the options do, the plugin [NewPlugin] returns has a
    name and a logger.  A name and a logger the options set are kept; a
    missing name becomes ["resync"], and a missing logger is the one
    [logging.ForPlugin] makes for the name the plugin ends up with.  The
    rest of the plugin is what the options left. *)
Theorem NewPlugin_named_and_logged :
  forall opts,
    let p := apply_options opts in
    let q := NewPlugin opts in
    PluginName (Deps_ q) <> "" /\
    Log (Deps_ q) <> None /\
    PluginName (Deps_ q) =
      (if String.eqb (PluginName (Deps_ p)) "" then "resync" else PluginName (Deps_ p)) /\
    Log (Deps_ q) =
      match Log (Deps_ p) with
      | Some l => Some l
      | None => Some (ForPlugin (PluginName (Deps_ q)))
      end /\
    rest q = rest p.
Proof.
  intros opts p q. subst q. unfold NewPlugin. fold p.
  destruct (String.eqb_spec (PluginName (Deps_ p)) "") as [E | E];
    destruct (Log (Deps_ p)) as [l|] eqn:Hl; cbn; rewrite ?Hl; cbn;
    repeat split; try discriminate; try assumption.
Qed.

Lemma apply_options_last :
  forall opts o, apply_options (opts ++ [o]) = o (apply_options opts).
Proof.
  intros opts o. unfold apply_options. now rewrite fold_left_app.
Qed.

(** X21. The last [UseDeps] decides: after any options, [UseDeps deps]
    replaces the name and the logger by those of [deps], so the plugin gets
    the name of [deps] (["resync"] when that is empty) and the logger of
    [deps] (the one made for that name when [deps] has none). *)
Theorem UseDeps_last_wins :
  forall opts deps,
    let q := NewPlugin (opts ++ [UseDeps deps]) in
    let name := if String.eqb (PluginName deps) "" then "resync" else PluginName deps in
    PluginName (Deps_ q) = name /\
    Log (Deps_ q) =
      match Log deps with
      | Some l => Some l
      | None => Some (ForPlugin name)
      end /\
    rest q = rest (apply_options opts).
Proof.
  intros opts deps q name. subst q name. unfold NewPlugin.
  rewrite apply_options_last. unfold UseDeps. cbn.
  destruct (String.eqb (PluginName deps) ""); destruct (Log deps); cbn;
    repeat split.
Qed.

End PluginProperties.

End resync_spec.
